(** * ESTEIRA compiler for MicrowaveVM: the driver and the translation scheme

    The development follows the layout of the compiler:
    - [Text]: output text, cut into lines;
    - [Monad]: state passing with an early exit, shared by the driver
      (exit = [return] out of [main]) and by the translator (exit = a fatal
      error that aborts the parse);
    - [Libc]: the stdio calls [main] makes, over an explicit process state;
    - [Driver]: [main] of src/driver.c, with [yyparse] as a parameter;
    - [Tokens]: the token kinds of src/parser.tab.h;
    - [Esteira]: the translation scheme behind [yyparse];
    - [Compiler]: the translator run by [main].
    The properties follow, module by module. *)

From Stdlib Require Import ZArith List String Ascii Bool Lia.
From Stdlib Require Import Floats.
From Stdlib Require Import DecimalString DecimalNat.
From stdpp Require Import base option list strings gmap.

Local Open Scope Z_scope.

(** ** Text and lines *)

Module Text.

(** The newline character written by ["\n"] in a C format string. *)
Definition nl_char : ascii := ascii_of_nat 10.
Definition nl : string := String nl_char "".

(** [lines s] cuts a text at its newlines; a final newline ends the last
    line and opens no empty one. *)
Fixpoint lines (s : string) : list string :=
  match s with
  | EmptyString => []
  | String c s' =>
      if Ascii.eqb c nl_char then EmptyString :: lines s'
      else match lines s' with
           | [] => [String c EmptyString]
           | l :: ls => String c l :: ls
           end
  end.

(** A text made of whole lines: empty, or ending in a newline. *)
Fixpoint whole_lines (s : string) : bool :=
  match s with
  | EmptyString => true
  | String c EmptyString => Ascii.eqb c nl_char
  | String _ s' => whole_lines s'
  end.

(** A line of text holds no newline. *)
Fixpoint one_line (s : string) : bool :=
  match s with
  | EmptyString => true
  | String c s' => negb (Ascii.eqb c nl_char) && one_line s'
  end.

(** Writing a list of lines, each followed by a newline. *)
Definition unlines (ls : list string) : string :=
  fold_right (fun l acc => l +:+ nl +:+ acc) EmptyString ls.

End Text.

(** ** State passing with an early exit

    [SE S E A] is a computation over a state [S] that either yields an [A] or
    leaves early with an [E]; the state reached so far is kept in both cases. *)

Module Monad.

Definition SE (S E A : Type) : Type := S -> (A + E) * S.

Definition ret {S E A} (a : A) : SE S E A := fun s => (inl a, s).

Definition bind {S E A B} (m : SE S E A) (k : A -> SE S E B) : SE S E B :=
  fun s => match m s with
           | (inl a, s') => k a s'
           | (inr e, s') => (inr e, s')
           end.

(** Leave the computation at once. *)
Definition leave {S E A} (e : E) : SE S E A := fun s => (inr e, s).

Definition get {S E} : SE S E S := fun s => (inl s, s).
Definition modify {S E} (f : S -> S) : SE S E unit := fun s => (inl tt, f s).

End Monad.

Import Monad.

Declare Scope se_scope.
Delimit Scope se_scope with se.
Notation "x <- m ;; k" := (bind m (fun x => k))
  (at level 100, m at next level, right associativity) : se_scope.
Notation "m ;; k" := (bind m (fun _ => k))
  (at level 100, right associativity) : se_scope.

(** ** The process state and the stdio calls of the driver *)

Module Libc.

(** The two modes [main] passes to [fopen]: ["r"] and ["w"]. *)
Inductive fmode : Set := ModeR | ModeW.

(** A stream ([FILE*]): its descriptor, the path it was opened on and the
    mode.  A null [FILE*] is [None] of [option FILE]. *)
Record FILE : Set := mkFILE { f_id : nat; f_path : string; f_mode : fmode }.

Global Instance fmode_eq_dec : EqDecision fmode.
Proof. solve_decision. Defined.
Global Instance FILE_eq_dec : EqDecision FILE.
Proof. solve_decision. Defined.

(** The standard streams, open when [main] starts. *)
Definition stdin : FILE := mkFILE 0 "" ModeR.
Definition stdout : FILE := mkFILE 1 "" ModeW.
Definition stderr : FILE := mkFILE 2 "" ModeW.

(** What the process does, in order. *)
Inductive event : Type :=
  | EvFopen (path : string) (m : fmode) (r : option FILE)
  | EvPerror (s : string)
  | EvFprintf (f : FILE) (text : string)
  | EvYyparse (input : option FILE) (res : Z)
  | EvFclose (f : FILE).

(** The state [main] runs in: the two global streams of the program
    ([yyin] of the scanner, [out] of driver.c), the files on disk, the text
    sent to standard error, the open streams, [errno] (as the text
    [strerror] gives for it) and the calls made so far.  A file is known by
    the path it was opened on: two paths that name one file are two entries
    of [disk]. *)
Record State : Type := mkState {
  yyin : option FILE;
  out : option FILE;
  disk : gmap string string;
  err_text : string;
  open_streams : list FILE;
  next_id : nat;
  errno : string;
  trace : list event
}.

(** The file system as [fopen] sees it: [fs_error path mode] is [None] when
    the file opens and the [strerror] text of the failure otherwise. *)
Definition Env : Type := string -> fmode -> option string.

(** The state at process start: the globals are null ([FILE* out = NULL];
    [yyin] has static storage and no stream to start from). *)
Definition init_state (d : gmap string string) : State :=
  {| yyin := None; out := None; disk := d; err_text := "";
     open_streams := [stdin; stdout; stderr]; next_id := 3;
     errno := ""; trace := [] |}.

Definition log (e : event) (s : State) : State :=
  {| yyin := yyin s; out := out s; disk := disk s; err_text := err_text s;
     open_streams := open_streams s; next_id := next_id s;
     errno := errno s; trace := trace s ++ [e] |}.

Definition set_yyin (f : option FILE) (s : State) : State :=
  {| yyin := f; out := out s; disk := disk s; err_text := err_text s;
     open_streams := open_streams s; next_id := next_id s;
     errno := errno s; trace := trace s |}.

Definition set_out (f : option FILE) (s : State) : State :=
  {| yyin := yyin s; out := f; disk := disk s; err_text := err_text s;
     open_streams := open_streams s; next_id := next_id s;
     errno := errno s; trace := trace s |}.

(** Appending [text] to what stream [f] holds: standard error (told by its
    descriptor) collects its text in [err_text], a stream opened for writing
    appends to its file.  [err_text] is what went through the stream
    [stderr]; a file opened on a path that names the same device is a file
    of [disk] like any other. *)
Definition write_stream (f : FILE) (text : string) (s : State) : State :=
  if (f_id f =? f_id stderr)%nat then
    {| yyin := yyin s; out := out s; disk := disk s;
       err_text := err_text s +:+ text;
       open_streams := open_streams s; next_id := next_id s;
       errno := errno s; trace := trace s |}
  else
    match f_mode f with
    | ModeR => s
    | ModeW =>
        {| yyin := yyin s; out := out s;
           disk := alter (fun old => old +:+ text) (f_path f) (disk s);
           err_text := err_text s;
           open_streams := open_streams s; next_id := next_id s;
           errno := errno s; trace := trace s |}
    end.

(** The line [perror(msg)] prints: [msg], a colon and a blank when [msg] is
    not empty, then the text for [errno] and a newline. *)
Definition perror_line (msg why : string) : string :=
  match msg with
  | EmptyString => why +:+ Text.nl
  | _ => msg +:+ ": " +:+ why +:+ Text.nl
  end.

Section Calls.

Variable E : Type.
Variable env : Env.

(** [fopen(path, mode)]: a fresh stream, or null with [errno] set.  Mode
    ["w"] creates the file or truncates it to length zero. *)
Definition fopen (path : string) (m : fmode) : SE State E (option FILE) :=
  fun s =>
    match env path m with
    | Some why =>
        (inl None,
         log (EvFopen path m None)
           {| yyin := yyin s; out := out s; disk := disk s;
              err_text := err_text s; open_streams := open_streams s;
              next_id := next_id s; errno := why; trace := trace s |})
    | None =>
        let f := mkFILE (next_id s) path m in
        (inl (Some f),
         log (EvFopen path m (Some f))
           {| yyin := yyin s; out := out s;
              disk := match m with
                      | ModeR => disk s
                      | ModeW => <[path := EmptyString]> (disk s)
                      end;
              err_text := err_text s;
              open_streams := f :: open_streams s;
              next_id := S (next_id s); errno := errno s;
              trace := trace s |})
    end.

(** [fprintf(f, text)] for a format without conversions. *)
Definition fprintf (f : FILE) (text : string) : SE State E unit :=
  modify (fun s => log (EvFprintf f text) (write_stream f text s)).

(** [perror(s)]: the line for [s] and [errno], on standard error. *)
Definition perror (msg : string) : SE State E unit :=
  modify (fun s =>
    log (EvPerror msg) (write_stream stderr (perror_line msg (errno s)) s)).

(** [fclose(f)]: the stream with that descriptor is no longer open. *)
Definition fclose (f : FILE) : SE State E unit :=
  modify (fun s =>
    log (EvFclose f)
      {| yyin := yyin s; out := out s; disk := disk s;
         err_text := err_text s;
         open_streams :=
           List.filter (fun g => negb (f_id g =? f_id f)%nat) (open_streams s);
         next_id := next_id s; errno := errno s; trace := trace s |}).

End Calls.

End Libc.

(** ** The driver: [main] of src/driver.c *)

Module Driver.

Import Libc.

(** What one call of [yyparse] does, as far as [main] can tell: the [int] it
    returns, the lines its reductions send to [out], what it reports on
    standard error, and the value it leaves in the scanner's [yyin]. *)
Record ParseOutcome : Type := mkOutcome {
  yy_res : Z;
  yy_emitted : list string;
  yy_diag : string;
  yy_yyin : option FILE
}.

(** [int yyparse(void)] is only declared in driver.c; it is a parameter,
    free to look at the whole state it is called in. *)
Definition Parser : Type := State -> ParseOutcome.

Definition banner : string :=
  "; Codigo gerado pela linguagem ESTEIRA para MicrowaveVM".

Definition default_out_name : string := "programa.mwasm".

Definition falha : string := "Falha na compilacao".

(** Modelled from the spec: the Emitter, which is not in src/ ("writes one
    instruction per line, labels on their own lines", "does not buffer beyond
    a single line"): every emitted line goes to the global [out] followed by
    a newline. *)
Definition emit_lines (ls : list string) (s : State) : State :=
  match out s with
  | Some f => write_stream f (Text.unlines ls) s
  | None => s
  end.

Section Main.

Variable yyparse : Parser.
Variable env : Env.

(** [main] leaves early with the value of a [return] statement. *)
Abbreviation M := (SE State Z).

Local Open Scope se_scope.

(** The call [yyparse()]: its output reaches [out] and standard error, and
    [yyin] is as the scanner leaves it.  The event records the [yyin] the
    scanner was given and the value returned. *)
Definition call_yyparse : M Z :=
  s <- get ;;
  let o := yyparse s in
  modify (fun s => log (EvYyparse (yyin s) (yy_res o))
                     (set_yyin (yy_yyin o)
                        (write_stream stderr (yy_diag o)
                           (emit_lines (yy_emitted o) s)))) ;;
  ret (yy_res o).

(** [if (yyin) fclose(yyin);] *)
Definition close_yyin : M unit :=
  s <- get ;;
  match yyin s with
  | Some f => fclose Z f
  | None => ret tt
  end.

(** A call on the global stream [out], as in [fprintf(out, ...)]; [main]
    makes such calls only after it has found [out] non-null. *)
Definition on_out (call : FILE -> M unit) : M unit :=
  s <- get ;;
  match out s with
  | Some f => call f
  | None => ret tt
  end.

(** Lines 11-19: the names chosen from the command line. *)
Definition in_name_of (argv : list string) : option string :=
  if 2 <=? Z.of_nat (length argv) then argv !! 1%nat else None.

Definition out_name_of (argv : list string) : string :=
  if 3 <=? Z.of_nat (length argv)
  then default default_out_name (argv !! 2%nat)
  else default_out_name.

Definition main (argv : list string) : M Z :=
  let in_name := in_name_of argv in
  let out_name := out_name_of argv in
  match in_name with
  | Some name =>
      f <- fopen Z env name ModeR ;;
      modify (set_yyin f) ;;
      match f with
      | None => perror Z name ;; leave 1
      | Some _ => ret tt
      end
  | None => ret tt
  end ;;
  o <- fopen Z env out_name ModeW ;;
  modify (set_out o) ;;
  match o with
  | None => perror Z out_name ;; close_yyin ;; leave 1
  | Some _ => ret tt
  end ;;
  on_out (fun f => fprintf Z f (banner +:+ Text.nl)) ;;
  res <- call_yyparse ;;
  (if negb (res =? 0)
   then fprintf Z stderr (falha +:+ Text.nl)
   else ret tt) ;;
  on_out (fun f => fprintf Z f ("HALT" +:+ Text.nl)) ;;
  on_out (fclose Z) ;;
  close_yyin ;;
  ret res.

(** The value [main] returns, by [return] or at its end, and the state it
    leaves. *)
Definition run_main (argv : list string) (s : State) : Z * State :=
  match main argv s with
  | (inl r, s') => (r, s')
  | (inr r, s') => (r, s')
  end.

Definition exit_code (argv : list string) (d : gmap string string) : Z :=
  fst (run_main argv (init_state d)).

Definition final_state (argv : list string) (d : gmap string string) : State :=
  snd (run_main argv (init_state d)).

End Main.

(** Whether the files named on the command line open. *)
Definition input_opens (env : Env) (argv : list string) : bool :=
  match in_name_of argv with
  | Some name => bool_decide (env name ModeR = None)
  | None => true
  end.

Definition output_opens (env : Env) (argv : list string) : bool :=
  bool_decide (env (out_name_of argv) ModeW = None).


(** A sample parser: it returns [res], emits [body], reports [diag], and its
    scanner falls back on standard input when [yyin] is null. *)
Definition sample_parser (res : Z) (body : list string) (diag : string) : Parser :=
  fun s => {| yy_res := res; yy_emitted := body; yy_diag := diag;
              yy_yyin := match yyin s with
                         | Some f => Some f
                         | None => Some stdin
                         end |}.

(** A file system where every file opens, and one where [path] does not. *)
Definition env_ok : Env := fun _ _ => None.
Definition env_without (path : string) : Env :=
  fun p _ => if decide (p = path)
             then Some "No such file or directory" else None.

(** A command line with both arguments, one with the input only. *)
Definition argv_both : list string := ["esteira"; "a.est"; "b.mwasm"].
Definition argv_input : list string := ["esteira"; "a.est"].

(** The promise of section 6.1 about a failing run, read for every failure:
    when the exit code is not 0, standard error holds a line that starts
    with [falha] and the output file ends with the line [HALT]. *)
Definition failure_contract (yyparse : Parser) (env : Env)
    (argv : list string) (d : gmap string string) : Prop :=
  let s := final_state yyparse env argv d in
  exit_code yyparse env argv d <> 0 ->
  (exists l, In l (Text.lines (err_text s)) /\ String.prefix falha l = true) /\
  (exists text, disk s !! out_name_of argv = Some text /\
                last (Text.lines text) = Some "HALT").



End Driver.

(** ** The token vocabulary: [enum yytokentype] of src/parser.tab.h *)

Module Tokens.

Inductive yytokentype : Set :=
  | YYEMPTY | YYEOF | YYerror | YYUNDEF
  | ESTEIRA | VAR | SE | SENAO | ENQUANTO
  | LIGAR | DESLIGAR | INICIAR | PARAR | DEFINIR | MOSTRAR | BIP | ESPERAR
  | SENSOR | REG | MEM | TRUE | FALSE
  | TYPE_INT | TYPE_FLOAT | TYPE_BOOL | TYPE_STRING
  | LOR | LAND | EQEQ | NEQ | LEQ | GEQ
  | UNIT_KM_H | UNIT_M_S | UNIT_PERCENT | UNIT_GRAUS | UNIT_BPM
  | UNIT_KM | UNIT_M | UNIT_MIN | UNIT_S | UNIT_MS
  | R0 | R1 | R2 | R3
  | STRING_LIT | IDENT | INT_LIT | FLOAT_LIT | UMINUS | UPLUS.

(** The value of each enumerator. *)
Definition token_code (t : yytokentype) : Z :=
  match t with
  | YYEMPTY => -2 | YYEOF => 0 | YYerror => 256 | YYUNDEF => 257
  | ESTEIRA => 258 | VAR => 259 | SE => 260 | SENAO => 261 | ENQUANTO => 262
  | LIGAR => 263 | DESLIGAR => 264 | INICIAR => 265 | PARAR => 266
  | DEFINIR => 267 | MOSTRAR => 268 | BIP => 269 | ESPERAR => 270
  | SENSOR => 271 | REG => 272 | MEM => 273 | TRUE => 274 | FALSE => 275
  | TYPE_INT => 276 | TYPE_FLOAT => 277 | TYPE_BOOL => 278 | TYPE_STRING => 279
  | LOR => 280 | LAND => 281 | EQEQ => 282 | NEQ => 283 | LEQ => 284 | GEQ => 285
  | UNIT_KM_H => 286 | UNIT_M_S => 287 | UNIT_PERCENT => 288 | UNIT_GRAUS => 289
  | UNIT_BPM => 290 | UNIT_KM => 291 | UNIT_M => 292 | UNIT_MIN => 293
  | UNIT_S => 294 | UNIT_MS => 295
  | R0 => 296 | R1 => 297 | R2 => 298 | R3 => 299
  | STRING_LIT => 300 | IDENT => 301 | INT_LIT => 302 | FLOAT_LIT => 303
  | UMINUS => 304 | UPLUS => 305
  end.

End Tokens.

(** ** The translator

    The grammar file and the scanner are not in src/; the abstract syntax,
    the symbol table, the label generator and the emission rules below are
    modelled from sections 3, 4 and 6.2 of the specification. *)

Module Esteira.

Import Monad.
Local Open Scope se_scope.

(** *** Abstract syntax *)

(** The unit suffixes, the registers and the type keywords of the token set
    of src/parser.tab.h. *)
Inductive unit_suffix : Set :=
  | u_km_h | u_m_s | u_percent | u_graus | u_bpm
  | u_km | u_m | u_min | u_s | u_ms.

Inductive reg : Set := r0 | r1 | r2 | r3.

Inductive type : Set := t_int | t_float | t_bool | t_string.

Definition unit_token (u : unit_suffix) : Tokens.yytokentype :=
  match u with
  | u_km_h => Tokens.UNIT_KM_H | u_m_s => Tokens.UNIT_M_S
  | u_percent => Tokens.UNIT_PERCENT | u_graus => Tokens.UNIT_GRAUS
  | u_bpm => Tokens.UNIT_BPM | u_km => Tokens.UNIT_KM | u_m => Tokens.UNIT_M
  | u_min => Tokens.UNIT_MIN | u_s => Tokens.UNIT_S | u_ms => Tokens.UNIT_MS
  end.

Definition reg_token (r : reg) : Tokens.yytokentype :=
  match r with
  | r0 => Tokens.R0 | r1 => Tokens.R1 | r2 => Tokens.R2 | r3 => Tokens.R3
  end.

Definition type_token (t : type) : Tokens.yytokentype :=
  match t with
  | t_int => Tokens.TYPE_INT | t_float => Tokens.TYPE_FLOAT
  | t_bool => Tokens.TYPE_BOOL | t_string => Tokens.TYPE_STRING
  end.

(** The value of a numeric literal, as [union YYSTYPE] of src/parser.tab.h
    carries it: [long long ival] for [INT_LIT], an integer from [LLONG_MIN]
    to [LLONG_MAX], or [double fval] for [FLOAT_LIT], a binary64 float. *)
Inductive num : Set :=
  | Int (k : Z)
  | Float (f : float).



(** The result of [long long] arithmetic: the value itself when it fits.
    C leaves signed overflow undefined; the value is then taken wrapped
    around modulo 2^64, as two's complement targets give it, and the
    properties below use of it only that it is some [long long]. *)
Definition wrap_ll (z : Z) : Z := (z + 2 ^ 63) mod 2 ^ 64 - 2 ^ 63.

(** The conversion of a [long long] to [double], rounding to nearest, ties
    to even. *)
Definition ll_to_double (k : Z) : float :=
  SF2Prim (binary_normalize prec emax k 0 false).

(** Modelled from the spec: the grammar of section 4.4 (the grammar file is
    not in src/), one constructor per production.  Precedence and
    associativity are those of the tree. *)
Inductive binop : Set := OpAdd | OpSub | OpMul | OpDiv.
Inductive cmpop : Set := CmpEq | CmpNe | CmpLt | CmpGt | CmpLe | CmpGe.

Inductive expr : Set :=
  | EInt (k : Z) (u : option unit_suffix)
  | EFloat (f : float) (u : option unit_suffix)
  | EString (s : string)
  | ETrue
  | EFalse
  | ESensor (name : string)
  | EIdent (name : string)
  | EParen (e : expr)
  | ENeg (e : expr)
  | EPos (e : expr)
  | EArith (op : binop) (a b : expr)
  | ECmp (op : cmpop) (a b : expr)
  | EAnd (a b : expr)
  | EOr (a b : expr).

(** Modelled from the spec: the statements of the grammar of section 4.4.
    [SSe c t e] is [SE (c) { t } SENAO { e }]; without [SENAO] the else
    branch [e] is empty. *)
#[local] Unset Elimination Schemes.
Inductive stmt : Set :=
  | SAssign (x : string) (e : expr)
  | SSe (c : expr) (t e : list stmt)
  | SEnquanto (c : expr) (b : list stmt)
  | SMostrar (args : list expr)
  | SBip
  | SEsperar (e : expr) (u : option unit_suffix)
  | SLigar
  | SDesligar
  | SIniciar
  | SDefinir (x : string) (e : expr)
  | SParar.
#[local] Set Elimination Schemes.

(** Modelled from the spec: the declarations of the grammar of section 4.4. *)
Inductive decl : Set :=
  | DVar (t : type) (x : string) (init : option expr)
  | DReg (r : reg) (x : string)
  | DMem (k : Z) (x : string).

(** [ESTEIRA name { decls stmts }] *)
Record program : Set := mkProgram {
  prog_name : string;
  prog_decls : list decl;
  prog_stmts : list stmt
}.

(** *** The target: MicrowaveVM instructions *)

(** Modelled from the spec: the slots and the mnemonics of section 6.2 (the
    emitting code is not in src/). *)
Inductive slot : Set :=
  | SlotReg (r : reg)
  | SlotMem (k : Z)
  | SlotVar (name : string).

Inductive instr : Set :=
  | PUSH (n : num) | PUSHS (s : string)
  | LOAD (s : slot) | STORE (s : slot)
  | ADD | SUB | MUL | DIV | NEG
  | CMPEQ | CMPNE | CMPLT | CMPGT | CMPLE | CMPGE
  | JZ (l : nat) | JNZ (l : nat) | JMP (l : nat)
  | READSENS (name : string)
  | POWERON | POWEROFF | START
  | SETPARAM (name : string)
  | PRINT (n : nat) | BEEP | SLEEP | HALT
  | LABEL (l : nat).

(** *** Unit normalisation *)

(** Modelled from the spec: the unit normalisation table of section 4.4 (the
    scanner and the grammar file are not in src/).  A factor is a numerator
    and a denominator: [(1000, 3600)] is "x1000/3600", [(60000, 1)] is
    "x60000", [(1, 1)] is "x1". *)
Definition unit_factor (u : unit_suffix) : Z * Z :=
  match u with
  | u_km_h => (1000, 3600)
  | u_m_s => (1, 1)
  | u_km => (1000, 1)
  | u_m => (1, 1)
  | u_min => (60000, 1)
  | u_s => (1000, 1)
  | u_ms => (1, 1)
  | u_percent => (1, 100)
  | u_graus => (1, 1)
  | u_bpm => (1, 1)
  end.

(** Modelled from the spec: normalisation "applied at the numeric literal
    that carries the unit", the literal times the factor of its unit, in the
    arithmetic of the literal's C type.  A factor x1 passes the literal
    through.  Under a whole factor an integer stays an integer, multiplied
    in [long long], and a float is multiplied in [double]; a fractional
    factor gives a [double], the integer converted first. *)
Definition normalise (u : unit_suffix) (n : num) : num :=
  let (a, b) := unit_factor u in
  if (a =? 1) && (b =? 1) then n
  else
    match n with
    | Int k =>
        if b =? 1 then Int (wrap_ll (k * a))
        else Float (ll_to_double k * ll_to_double a / ll_to_double b)
    | Float f =>
        if b =? 1 then Float (f * ll_to_double a)
        else Float (f * ll_to_double a / ll_to_double b)
    end.

Definition literal (n : num) (u : option unit_suffix) : num :=
  match u with
  | Some u => normalise u n
  | None => n
  end.

(** The units of time, which [ESPERAR] accepts. *)
Definition time_unit (u : unit_suffix) : bool :=
  match u with
  | u_min | u_s | u_ms => true
  | _ => false
  end.

(** *** Symbol table and label generator *)

(** Modelled from the spec: the symbols of sections 3 and 4.2 (the symbol
    table is not in src/). *)
Inductive kind : Set := KVariable | KRegAlias | KMemAlias.

Record symbol : Set := mkSymbol {
  sym_kind : kind;
  sym_type : option type;
  sym_slot : slot
}.

(** Modelled from the spec: the error kinds of section 7. *)
Inductive error : Set :=
  | LexicalError
  | SyntaxError
  | UndeclaredSymbol (x : string)
  | DuplicateSymbol (x : string)
  | TypeMismatch
  | UnitMisuse
  | IOError.

(** The state of one compilation: the symbol table, the label counter and
    the instructions emitted so far. *)
Record CState : Type := mkCState {
  symtab : gmap string symbol;
  next_label : nat;
  code : list instr
}.

Definition init_cstate : CState :=
  {| symtab := ∅; next_label := 0; code := [] |}.

(** Modelled from the spec: "errors ... abort the parse; already-emitted
    output is preserved" (section 7). *)
Abbreviation T := (SE CState error).

(** Modelled from the spec: the Emitter appends one instruction (section
    4.5). *)
Definition emit (i : instr) : T unit :=
  modify (fun s => {| symtab := symtab s; next_label := next_label s;
                      code := code s ++ [i] |}).

(** Modelled from the spec: the label generator of section 4.3, "a fresh
    label ordinal on demand", starting at 0. *)
Definition new_label : T nat :=
  fun s => (inl (next_label s),
            {| symtab := symtab s; next_label := S (next_label s);
               code := code s |}).

(** Modelled from the spec: [declare] and [lookup] of section 4.2, over a
    single flat namespace. *)
Definition sym_declare (x : string) (k : kind) (t : option type) (sl : slot)
  : T unit :=
  fun s => match symtab s !! x with
           | Some _ => (inr (DuplicateSymbol x), s)
           | None =>
               (inl tt,
                {| symtab := <[x := mkSymbol k t sl]> (symtab s);
                   next_label := next_label s; code := code s |})
           end.

Definition sym_lookup (x : string) : T symbol :=
  fun s => match symtab s !! x with
           | Some sy => (inl sy, s)
           | None => (inr (UndeclaredSymbol x), s)
           end.

(** *** Emission rules *)

(** Modelled from the spec: the syntax-directed emission rules of section
    4.4 (the grammar file with its actions is not in src/), one clause per
    rule. *)
Definition arith_instr (op : binop) : instr :=
  match op with
  | OpAdd => ADD | OpSub => SUB | OpMul => MUL | OpDiv => DIV
  end.

Definition cmp_instr (op : cmpop) : instr :=
  match op with
  | CmpEq => CMPEQ | CmpNe => CMPNE | CmpLt => CMPLT
  | CmpGt => CMPGT | CmpLe => CMPLE | CmpGe => CMPGE
  end.

(** Modelled from the spec: the rules for expressions.  Labels are taken on
    demand, at the jump or label line that first needs them. *)
Fixpoint compile_expr (e : expr) : T unit :=
  match e with
  | EInt k u => emit (PUSH (literal (Int k) u))
  | EFloat f u => emit (PUSH (literal (Float f) u))
  | EString s => emit (PUSHS s)
  | ETrue => emit (PUSH (Int 1))
  | EFalse => emit (PUSH (Int 0))
  | ESensor name => emit (READSENS name)
  | EIdent x => sy <- sym_lookup x ;; emit (LOAD (sym_slot sy))
  | EParen e1 => compile_expr e1
  | ENeg e1 => compile_expr e1 ;; emit NEG
  | EPos e1 => compile_expr e1
  | EArith op a b => compile_expr a ;; compile_expr b ;; emit (arith_instr op)
  | ECmp op a b => compile_expr a ;; compile_expr b ;; emit (cmp_instr op)
  | EAnd a b =>
      compile_expr a ;;
      lfalse <- new_label ;; emit (JZ lfalse) ;;
      compile_expr b ;;
      lend <- new_label ;; emit (JMP lend) ;;
      emit (LABEL lfalse) ;; emit (PUSH (Int 0)) ;;
      emit (LABEL lend)
  | EOr a b =>
      compile_expr a ;;
      ltrue <- new_label ;; emit (JNZ ltrue) ;;
      compile_expr b ;;
      lend <- new_label ;; emit (JMP lend) ;;
      emit (LABEL ltrue) ;; emit (PUSH (Int 1)) ;;
      emit (LABEL lend)
  end.

Fixpoint compile_args (args : list expr) : T unit :=
  match args with
  | [] => ret tt
  | e :: rest => compile_expr e ;; compile_args rest
  end.

(** Modelled from the spec: [ESPERAR(expr unit?)], the operand in
    milliseconds, then [SLEEP].  A unit belongs to a numeric literal; on any
    other operand, or when it is not a unit of time, the statement fails with
    [UnitMisuse] (sections 4.4 and 7). *)
Definition compile_esperar (e : expr) (u : option unit_suffix) : T unit :=
  match u with
  | None =>
      match e with
      | EInt _ (Some u') | EFloat _ (Some u') =>
          if time_unit u' then compile_expr e else leave UnitMisuse
      | _ => compile_expr e
      end
  | Some u' =>
      match e with
      | EInt k None =>
          if time_unit u' then emit (PUSH (normalise u' (Int k)))
          else leave UnitMisuse
      | EFloat f None =>
          if time_unit u' then emit (PUSH (normalise u' (Float f)))
          else leave UnitMisuse
      | _ => leave UnitMisuse
      end
  end ;;
  emit SLEEP.

(** Modelled from the spec: the rules for statements. *)
Fixpoint compile_stmt (s : stmt) : T unit :=
  let compile_block :=
    fix compile_block (b : list stmt) : T unit :=
      match b with
      | [] => ret tt
      | s1 :: rest => compile_stmt s1 ;; compile_block rest
      end in
  match s with
  | SAssign x e =>
      compile_expr e ;; sy <- sym_lookup x ;; emit (STORE (sym_slot sy))
  | SSe c t e =>
      compile_expr c ;;
      lelse <- new_label ;; emit (JZ lelse) ;;
      compile_block t ;;
      lend <- new_label ;; emit (JMP lend) ;;
      emit (LABEL lelse) ;;
      compile_block e ;;
      emit (LABEL lend)
  | SEnquanto c b =>
      ltop <- new_label ;; emit (LABEL ltop) ;;
      compile_expr c ;;
      lend <- new_label ;; emit (JZ lend) ;;
      compile_block b ;;
      emit (JMP ltop) ;;
      emit (LABEL lend)
  | SMostrar args => compile_args args ;; emit (PRINT (length args))
  | SBip => emit BEEP
  | SEsperar e u => compile_esperar e u
  | SLigar => emit POWERON
  | SDesligar => emit POWEROFF
  | SIniciar => emit START
  | SDefinir x e => compile_expr e ;; emit (SETPARAM x)
  | SParar => emit HALT
  end.

Fixpoint compile_block (b : list stmt) : T unit :=
  match b with
  | [] => ret tt
  | s1 :: rest => compile_stmt s1 ;; compile_block rest
  end.

(** Modelled from the spec: declarations.  A declaration enters the symbol
    table when it is reduced, after its initialiser has been compiled; a
    variable lives in the slot [VAR_<name>]. *)
Definition compile_decl (d : decl) : T unit :=
  match d with
  | DVar t x None => sym_declare x KVariable (Some t) (SlotVar x)
  | DVar t x (Some e) =>
      compile_expr e ;;
      sym_declare x KVariable (Some t) (SlotVar x) ;;
      emit (STORE (SlotVar x))
  | DReg r x => sym_declare x KRegAlias None (SlotReg r)
  | DMem k x => sym_declare x KMemAlias None (SlotMem k)
  end.

Fixpoint compile_decls (ds : list decl) : T unit :=
  match ds with
  | [] => ret tt
  | d :: rest => compile_decl d ;; compile_decls rest
  end.

Definition compile_program (p : program) : T unit :=
  compile_decls (prog_decls p) ;; compile_block (prog_stmts p).

(** One compilation, from the empty table and label 0. *)
Definition translate (p : program) : (unit + error) * CState :=
  compile_program p init_cstate.

Definition emitted (p : program) : list instr := code (snd (translate p)).

Definition succeeds (p : program) : bool :=
  match fst (translate p) with
  | inl _ => true
  | inr _ => false
  end.

(** *** Labels of a listing *)

(** The label a jump refers to, and the label a line defines. *)
Definition ref_of (i : instr) : option nat :=
  match i with
  | JZ l | JNZ l | JMP l => Some l
  | _ => None
  end.

Definition def_of (i : instr) : option nat :=
  match i with
  | LABEL l => Some l
  | _ => None
  end.

Definition mention_of (i : instr) : option nat :=
  match i with
  | JZ l | JNZ l | JMP l | LABEL l => Some l
  | _ => None
  end.

Definition refs (c : list instr) : list nat := omap ref_of c.
Definition defs (c : list instr) : list nat := omap def_of c.
Definition mentions (c : list instr) : list nat := omap mention_of c.

(** [issue_order n ms]: reading the labels [ms] in order of appearance with
    [n] labels known, every label is either known already or the next
    ordinal [n]; the result is the number of labels known at the end. *)
Fixpoint issue_order (n : nat) (ms : list nat) : option nat :=
  match ms with
  | [] => Some n
  | m :: rest =>
      if (m <? n)%nat then issue_order n rest
      else if (m =? n)%nat then issue_order (S n) rest
      else None
  end.

(** [Seg ok a b c]: the listing [c] of one construct that took the labels
    [a], ..., [b-1].  It refers to these labels only, defines none of them
    twice and none outside, and introduces them in order; when the construct
    was compiled to its end ([ok]), it defines every one of them. *)
Record Seg (ok : bool) (a b : nat) (c : list instr) : Prop := mkSeg {
  seg_le : (a <= b)%nat;
  seg_order : issue_order a (mentions c) = Some b;
  seg_refs : forall l, l ∈ refs c -> (a <= l < b)%nat;
  seg_defs : forall l, l ∈ defs c -> (a <= l < b)%nat;
  seg_nodup : NoDup (defs c);
  seg_all : ok = true -> forall l, (a <= l < b)%nat -> l ∈ defs c
}.

(** A conditional or unconditional jump, to the label it is given. *)
Definition jump_to (J : nat -> instr) : Prop :=
  forall l, mention_of (J l) = Some l /\ ref_of (J l) = Some l /\
            def_of (J l) = None.

Definition is_ok {A E : Type} (r : A + E) : bool :=
  match r with
  | inl _ => true
  | inr _ => false
  end.

(** A computation that appends such a listing to the code. *)
Definition Tracks {A : Type} (m : T A) : Prop :=
  forall s, exists c,
    code (snd (m s)) = code s ++ c /\
    Seg (is_ok (fst (m s))) (next_label s) (next_label (snd (m s))) c.

(** The label discipline of sections 4.3 and 8, read for every compilation:
    each label a jump refers to is defined exactly once, and the labels
    appear in the order L0, L1, ... up to the number of labels taken. *)
Definition labels_contract (p : program) : Prop :=
  (forall k, In k (refs (emitted p)) ->
             count_occ Nat.eq_dec (defs (emitted p)) k = 1%nat) /\
  issue_order 0 (mentions (emitted p)) = Some (next_label (snd (translate p))).





(** [ESTEIRA p { SE (TRUE) { BIP; } SENAO { BIP; }
    ENQUANTO (SENSOR(temp) < 50 && TRUE) { BIP; } }] *)
Definition branch_and_loop : program :=
  mkProgram "p" []
    [SSe ETrue [SBip] [SBip];
     SEnquanto (EAnd (ECmp CmpLt (ESensor "temp") (EInt 50 None)) ETrue)
       [SBip]].

(** [ESTEIRA p { SE (TRUE) { y = 1; } }] with [y] not declared: the parse
    aborts inside the branch. *)
Definition aborted_se : program :=
  mkProgram "p" [] [SSe ETrue [SAssign "y" (EInt 1 None)] []].

(** *** The textual form of a listing *)

(** Modelled from the spec: the text format of section 6.2, one instruction
    per line. *)

Definition dquote : string := String (ascii_of_nat 34) "".

Definition show_nat (n : nat) : string :=
  NilEmpty.string_of_uint (Nat.to_uint n).

Definition show_int (k : Z) : string :=
  NilZero.string_of_int (Z.to_int k).

(** Labels match [L[0-9]+]. *)
Definition label_name (l : nat) : string := "L" +:+ show_nat l.

Definition render_reg (r : reg) : string :=
  match r with
  | r0 => "R0" | r1 => "R1" | r2 => "R2" | r3 => "R3"
  end.

Definition render_slot (s : slot) : string :=
  match s with
  | SlotReg r => render_reg r
  | SlotMem k => "MEM[" +:+ show_int k +:+ "]"
  | SlotVar name => "VAR_" +:+ name
  end.

Section Render.

(** How a floating value is printed is not fixed by the specification. *)
Variable fmt_float : float -> string.

Definition render_num (n : num) : string :=
  match n with
  | Int k => show_int k
  | Float f => fmt_float f
  end.

Definition render (i : instr) : string :=
  match i with
  | PUSH n => "PUSH " +:+ render_num n
  | PUSHS s => "PUSHS " +:+ dquote +:+ s +:+ dquote
  | LOAD s => "LOAD " +:+ render_slot s
  | STORE s => "STORE " +:+ render_slot s
  | ADD => "ADD" | SUB => "SUB" | MUL => "MUL" | DIV => "DIV" | NEG => "NEG"
  | CMPEQ => "CMPEQ" | CMPNE => "CMPNE" | CMPLT => "CMPLT"
  | CMPGT => "CMPGT" | CMPLE => "CMPLE" | CMPGE => "CMPGE"
  | JZ l => "JZ " +:+ label_name l
  | JNZ l => "JNZ " +:+ label_name l
  | JMP l => "JMP " +:+ label_name l
  | READSENS name => "READSENS " +:+ name
  | POWERON => "POWERON" | POWEROFF => "POWEROFF" | START => "START"
  | SETPARAM name => "SETPARAM " +:+ name
  | PRINT n => "PRINT " +:+ show_nat n
  | BEEP => "BEEP" | SLEEP => "SLEEP" | HALT => "HALT"
  | LABEL l => label_name l +:+ ":"
  end.

Definition listing (c : list instr) : list string := map render c.

End Render.

(** The five statements that stand for one mnemonic each. *)
Definition mnemonic (s : stmt) : option string :=
  match s with
  | SLigar => Some "POWERON"
  | SDesligar => Some "POWEROFF"
  | SBip => Some "BEEP"
  | SIniciar => Some "START"
  | SParar => Some "HALT"
  | _ => None
  end.

Definition plain_stmt (s : stmt) : bool :=
  match mnemonic s with
  | Some _ => true
  | None => false
  end.

End Esteira.

(** ** The compiler: the translator behind [yyparse], run by [main] *)

Module Compiler.

Import Libc Driver Esteira.

Section Yyparse.

Variable fmt_float : float -> string.

(** The wording of a diagnostic is left open by the specification. *)
Variable describe : error -> string.

(** Modelled from the spec: [yyparse] on a source text whose derivation is
    [p] (the parser is not in src/).  It returns 0 on success and 1 when
    an error aborted the parse, hands the instructions emitted so far to
    the Emitter, reports the error on standard error, and reads standard
    input when [yyin] is null. *)
Definition yyparse_of (p : program) : Parser :=
  fun s =>
    let (r, cs) := translate p in
    {| yy_res := match r with inl _ => 0 | inr _ => 1 end;
       yy_emitted := listing fmt_float (code cs);
       yy_diag := match r with
                  | inl _ => EmptyString
                  | inr e => describe e +:+ Text.nl
                  end;
       yy_yyin := match yyin s with
                  | Some f => Some f
                  | None => Some stdin
                  end |}.

(** The lines of the output file [path] after [main] has run. *)
Definition output_lines (p : program) (env : Env) (argv : list string)
    (d : gmap string string) (path : string) : option (list string) :=
  Text.lines <$> (disk (final_state (yyparse_of p) env argv d) !! path).

End Yyparse.

(** A sample configuration: every float printed alike, every error named
    alike. *)
Definition sample_fmt : float -> string := fun _ => "0.0".
Definition sample_describe : error -> string := fun _ => "erro".

End Compiler.

(** ** What a run of [main] shows: calls read off a trace *)

Module Observed.

Import Libc.

(** The calls of [yyparse] in a trace: the [yyin] given and the value
    returned. *)
Definition parse_calls (t : list event) : list (option FILE * Z) :=
  omap (fun e => match e with
                 | EvYyparse y res => Some (y, res)
                 | _ => None
                 end) t.

(** The streams given to [fclose], in order. *)
Definition fclose_calls (t : list event) : list FILE :=
  omap (fun e => match e with
                 | EvFclose f => Some f
                 | _ => None
                 end) t.

(** A command line without arguments, and a file whose old content a run
    is to overwrite. *)
Definition argv_none : list string := ["esteira"].
Definition old_text : string := "lixo antigo".

(** The token kinds from [YYerror] to [UPLUS], in the order of the
    enumeration of src/parser.tab.h. *)
Definition grammar_tokens : list Tokens.yytokentype :=
  [Tokens.YYerror; Tokens.YYUNDEF; Tokens.ESTEIRA; Tokens.VAR; Tokens.SE;
   Tokens.SENAO; Tokens.ENQUANTO; Tokens.LIGAR; Tokens.DESLIGAR;
   Tokens.INICIAR; Tokens.PARAR; Tokens.DEFINIR; Tokens.MOSTRAR; Tokens.BIP;
   Tokens.ESPERAR; Tokens.SENSOR; Tokens.REG; Tokens.MEM; Tokens.TRUE;
   Tokens.FALSE; Tokens.TYPE_INT; Tokens.TYPE_FLOAT; Tokens.TYPE_BOOL;
   Tokens.TYPE_STRING; Tokens.LOR; Tokens.LAND; Tokens.EQEQ; Tokens.NEQ;
   Tokens.LEQ; Tokens.GEQ; Tokens.UNIT_KM_H; Tokens.UNIT_M_S;
   Tokens.UNIT_PERCENT; Tokens.UNIT_GRAUS; Tokens.UNIT_BPM; Tokens.UNIT_KM;
   Tokens.UNIT_M; Tokens.UNIT_MIN; Tokens.UNIT_S; Tokens.UNIT_MS; Tokens.R0;
   Tokens.R1; Tokens.R2; Tokens.R3; Tokens.STRING_LIT; Tokens.IDENT;
   Tokens.INT_LIT; Tokens.FLOAT_LIT; Tokens.UMINUS; Tokens.UPLUS].

End Observed.

(** * Properties *)

(** ** Lines of a text *)

Module TextFacts.

Import Text.

(** The two equations of string append. *)
Lemma append_nil_l (b : string) : "" +:+ b = b.
Proof. reflexivity. Qed.

Lemma append_cons (x : ascii) (a b : string) :
  String x a +:+ b = String x (a +:+ b).
Proof. reflexivity. Qed.

Ltac sapp := rewrite ?append_cons, ?append_nil_l.

Lemma append_assoc (a b c : string) : (a +:+ b) +:+ c = a +:+ (b +:+ c).
Proof. induction a as [|x a IH]; sapp; [reflexivity | now f_equal]. Qed.

Lemma append_nil_r (a : string) : a +:+ "" = a.
Proof. induction a as [|x a IH]; sapp; [reflexivity | now f_equal]. Qed.

Lemma lines_nil_inv (s : string) : lines s = [] -> s = "".
Proof.
  destruct s as [|c s]; [reflexivity |]. simpl.
  destruct (Ascii.eqb c nl_char); [discriminate |].
  destruct (lines s); discriminate.
Qed.

Lemma lines_nl (s : string) : lines (nl +:+ s) = "" :: lines s.
Proof. reflexivity. Qed.

(** A first line without newline is cut off at its newline. *)
Lemma lines_first (l rest : string) :
  one_line l = true -> lines (l +:+ nl +:+ rest) = l :: lines rest.
Proof.
  induction l as [|c l IH]; intros H; sapp.
  - apply lines_nl.
  - simpl in H. apply andb_true_iff in H as [Hc Hl].
    apply negb_true_iff in Hc. simpl. rewrite Hc, (IH Hl). reflexivity.
Qed.

(** Text after a newline starts on a line of its own. *)
Lemma lines_after_nl (t u : string) :
  lines (t +:+ nl +:+ u) = lines (t +:+ nl) ++ lines u.
Proof.
  induction t as [|c t IH]; sapp.
  - reflexivity.
  - simpl. destruct (Ascii.eqb c nl_char).
    + now rewrite IH.
    + rewrite IH. destruct (lines (t +:+ nl)) as [|l ls] eqn:E.
      * apply lines_nil_inv in E. destruct t; discriminate.
      * reflexivity.
Qed.

Lemma whole_lines_inv (t : string) :
  whole_lines t = true -> t = "" \/ exists t', t = t' +:+ nl.
Proof.
  induction t as [|c t IH]; [now left |]. intros H. right.
  destruct t as [|c' t].
  - simpl in H. apply Ascii.eqb_eq in H. subst c. now exists "".
  - destruct IH as [E | [t' E]]; [exact H | discriminate |].
    exists (String c t'). sapp. now rewrite <- E.
Qed.

Lemma whole_lines_app (a b : string) :
  whole_lines a = true -> whole_lines b = true -> whole_lines (a +:+ b) = true.
Proof.
  induction a as [|c a IH]; [now sapp |]. intros Ha Hb.
  destruct a as [|c' a]; sapp.
  - simpl in Ha. simpl. destruct b; [exact Ha | exact Hb].
  - rewrite <- append_cons. change (whole_lines (String c' a +:+ b) = true).
    apply IH; [exact Ha | exact Hb].
Qed.

Lemma whole_lines_line (l : string) : whole_lines (l +:+ nl) = true.
Proof.
  induction l as [|c l IH]; [reflexivity |]. sapp.
  destruct (l +:+ nl) eqn:E; [destruct l; discriminate | exact IH].
Qed.

Lemma whole_lines_unlines (ls : list string) : whole_lines (unlines ls) = true.
Proof.
  induction ls as [|l ls IH]; [reflexivity |].
  change (whole_lines (l +:+ nl +:+ unlines ls) = true).
  rewrite <- append_assoc. apply whole_lines_app; [apply whole_lines_line | exact IH].
Qed.

(** After whole lines, a last line [l] is the last line of the text. *)
Lemma last_lines_whole (t l : string) :
  whole_lines t = true -> one_line l = true ->
  last (lines (t +:+ l +:+ nl)) = Some l.
Proof.
  intros Ht Hl. destruct (whole_lines_inv t Ht) as [-> | [t' ->]].
  - sapp. rewrite <- (append_nil_r nl).
    rewrite (lines_first l "" Hl). reflexivity.
  - rewrite append_assoc, lines_after_nl.
    rewrite <- (append_nil_r nl) at 2. rewrite (lines_first l "" Hl).
    simpl. apply last_snoc.
Qed.

(** Lines written one by one are read back as they were. *)
Lemma lines_unlines (ls : list string) (rest : string) :
  forallb one_line ls = true ->
  lines (unlines ls +:+ rest) = ls ++ lines rest.
Proof.
  induction ls as [|l ls IH]; intros H; [reflexivity |].
  simpl in H. apply andb_true_iff in H as [Hl Hls].
  change (lines ((l +:+ nl +:+ unlines ls) +:+ rest) = l :: (ls ++ lines rest)).
  rewrite !append_assoc, (lines_first _ _ Hl), (IH Hls). reflexivity.
Qed.

End TextFacts.

(** ** The driver *)

Module DriverFacts.

Import Text TextFacts Libc Driver.

(** *** Running [main] along each of its paths *)

Ltac reduce_state :=
  cbn [negb yyin out disk err_text open_streams next_id errno trace log
       set_yyin set_out write_stream emit_lines fst snd f_id f_mode f_path
       stderr Nat.eqb init_state app].

(** One goal per path: the input does not open; the output does not open;
    both open, with [yyparse] returning 0 or not and leaving [yyin] set or
    null; the same without an input name. *)
Ltac run_paths yyparse env argv :=
  unfold exit_code, final_state, run_main, main;
  let name := fresh "name" in
  let Hin := fresh "Hin" in
  let Hr := fresh "Hr" in
  let Hw := fresh "Hw" in
  destruct (in_name_of argv) as [name|] eqn:Hin;
  [ destruct (env name ModeR) eqn:Hr | ];
  destruct (env (out_name_of argv) ModeW) eqn:Hw;
  cbv [bind fopen perror fclose fprintf modify get ret leave call_yyparse
       close_yyin on_out];
  rewrite ?Hr, ?Hw;
  reduce_state;
  try match goal with
      | |- context [yyparse ?S] =>
          let s := fresh "s_call" in
          let o := fresh "o" in
          let Hres := fresh "Hres" in
          let Hy := fresh "Hy" in
          set (s := S); set (o := yyparse s);
          destruct (Z.eqb_spec (yy_res o) 0) as [Hres | Hres];
          reduce_state;
          destruct (yy_yyin o) eqn:Hy;
          reduce_state
      end.

(** Membership in an explicit trace, case by case. *)
Ltac in_cases H :=
  cbn [In] in H;
  repeat (destruct H as [H | H];
          [try discriminate H; try (inversion H; subst; clear H) |]);
  try contradiction.

Ltac find_in := solve [repeat (first [left; reflexivity | right])].

Ltac break_hyps :=
  repeat match goal with
         | H : _ /\ _ |- _ => destruct H
         | H : exists _, _ |- _ => destruct H
         | H : In _ (_ :: _) |- _ => in_cases H
         | H : In _ [] |- _ => destruct H
         end.

Ltac close_path :=
  intros; break_hyps; subst;
  try discriminate; try congruence; try reflexivity; try lia;
  try find_in.


(** *** The names taken from the command line *)

Lemma in_name_of_lookup (argv : list string) : in_name_of argv = argv !! 1%nat.
Proof.
  unfold in_name_of. destruct argv as [|a0 [|a1 rest]]; try reflexivity.
  destruct (2 <=? Z.of_nat (length (a0 :: a1 :: rest))) eqn:E; [reflexivity |].
  apply Z.leb_gt in E. cbn [length] in E. lia.
Qed.

Lemma out_name_of_lookup (argv : list string) :
  out_name_of argv = default default_out_name (argv !! 2%nat).
Proof.
  unfold out_name_of.
  destruct (3 <=? Z.of_nat (length argv)) eqn:E; [reflexivity |].
  apply Z.leb_gt in E. destruct argv as [|a0 [|a1 [|a2 rest]]]; try reflexivity.
  cbn [length] in E. lia.
Qed.

(** *** The text of the output file *)

(** What [main] and the parser append to the emptied file, as lines. *)
Lemma output_text_shape (body : list string) :
  let text := (("" +:+ banner +:+ nl) +:+ unlines body) +:+ "HALT" +:+ nl in
  text = banner +:+ nl +:+ unlines body +:+ "HALT" +:+ nl /\
  head (lines text) = Some banner /\ last (lines text) = Some "HALT".
Proof.
  cbn zeta. rewrite append_nil_l. split; [| split].
  - now rewrite !append_assoc.
  - rewrite !append_assoc. rewrite lines_first by reflexivity. reflexivity.
  - apply last_lines_whole; [| reflexivity].
    apply whole_lines_app; [apply whole_lines_line | apply whole_lines_unlines].
Qed.

(** The lines of such a file, when no emitted line holds a newline. *)
Lemma output_text_lines (body : list string) :
  forallb one_line body = true ->
  lines (banner +:+ nl +:+ unlines body +:+ "HALT" +:+ nl) =
  banner :: body ++ ["HALT"].
Proof.
  intros Hbody. rewrite lines_first by reflexivity.
  rewrite lines_unlines by exact Hbody.
  rewrite <- (append_nil_r nl). rewrite (lines_first "HALT" "") by reflexivity.
  reflexivity.
Qed.

(** When both files open, the output file holds the banner, what the parser
    emitted and [HALT]. *)
Lemma main_output_text (yyparse : Parser) (env : Env) (argv : list string)
    (d : gmap string string) (body : list string) :
  (forall s, yy_emitted (yyparse s) = body) ->
  input_opens env argv = true -> output_opens env argv = true ->
  disk (final_state yyparse env argv d) !! out_name_of argv =
  Some (banner +:+ nl +:+ unlines body +:+ "HALT" +:+ nl).
Proof.
  intros Hbody. unfold input_opens, output_opens.
  run_paths yyparse env argv; rewrite ?Hr, ?Hw; try discriminate.
  all: intros _ _; rewrite !lookup_alter_eq, lookup_insert_eq;
       cbn [fmap option_fmap option_map]; f_equal.
  all: unfold o; rewrite Hbody; apply output_text_shape.
Qed.

(** C1. Whenever [main] opens the output file, the file holds, when [main]
    returns, the banner line first and the line [HALT] last, with the lines
    the parser emitted in between; this holds for every parser, whatever it
    returns and whatever it emits (a [HALT] of [PARAR;] included). *)
Theorem main_output_banner_halt (yyparse : Parser) (env : Env)
    (argv : list string) (d : gmap string string) (path : string) (f : FILE) :
  In (EvFopen path ModeW (Some f)) (trace (final_state yyparse env argv d)) ->
  exists body text,
    disk (final_state yyparse env argv d) !! path = Some text /\
    text = banner +:+ nl +:+ unlines body +:+ "HALT" +:+ nl /\
    head (lines text) = Some banner /\
    last (lines text) = Some "HALT".
Proof.
  run_paths yyparse env argv; intros H; in_cases H.
  all: exists (yy_emitted o); eexists.
  all: rewrite !lookup_alter_eq, lookup_insert_eq;
       cbn [fmap option_fmap option_map].
  all: split; [reflexivity | apply output_text_shape].
Qed.

Lemma main_output_banner_halt_witness :
  In (EvFopen "b.mwasm" ModeW (Some (mkFILE 4 "b.mwasm" ModeW)))
     (trace (final_state (sample_parser 1 ["BEEP"] "erro") env_ok argv_both ∅)) /\
  exists body text,
    disk (final_state (sample_parser 1 ["BEEP"] "erro") env_ok argv_both ∅)
      !! "b.mwasm" = Some text /\
    text = banner +:+ nl +:+ unlines body +:+ "HALT" +:+ nl /\
    head (lines text) = Some banner /\
    last (lines text) = Some "HALT".
Proof.
  assert (H : In (EvFopen "b.mwasm" ModeW (Some (mkFILE 4 "b.mwasm" ModeW)))
                (trace (final_state (sample_parser 1 ["BEEP"] "erro") env_ok
                          argv_both ∅))).
  { vm_compute. right. left. reflexivity. }
  split; [exact H |].
  exact (main_output_banner_halt _ _ _ _ _ _ H).
Defined.

(** C2. [main] returns 0 exactly when the input (if one is named) opens, the
    output opens and [yyparse] returns 0; it returns 1 when either file does
    not open, and the value of [yyparse] otherwise. *)
Theorem main_exit_code (yyparse : Parser) (env : Env) (argv : list string)
    (d : gmap string string) :
  let s := final_state yyparse env argv d in
  let code := exit_code yyparse env argv d in
  (code = 0 <->
     input_opens env argv = true /\ output_opens env argv = true /\
     exists y, In (EvYyparse y 0) (trace s)) /\
  (input_opens env argv = false -> code = 1) /\
  (output_opens env argv = false -> code = 1) /\
  (forall y res, In (EvYyparse y res) (trace s) -> code = res).
Proof.
  cbn zeta. unfold input_opens, output_opens.
  run_paths yyparse env argv; rewrite ?Hr, ?Hw.
  all: split; [split | split; [| split]]; try solve [close_path].
  all: try (intros _; repeat split; try reflexivity; eexists;
            rewrite <- Hres; find_in).
Qed.

Lemma main_exit_code_witness :
  exit_code (sample_parser 0 ["BEEP"] "") env_ok argv_both ∅ = 0 /\
  exit_code (sample_parser 2 ["BEEP"] "") env_ok argv_both ∅ = 2 /\
  exit_code (sample_parser 0 ["BEEP"] "") (env_without "a.est") argv_both ∅ = 1 /\
  exit_code (sample_parser 0 ["BEEP"] "") (env_without "b.mwasm") argv_both ∅ = 1.
Proof.
  split; [| split; [| split]].
  - apply (proj1 (main_exit_code (sample_parser 0 ["BEEP"] "") env_ok
                    argv_both ∅)).
    split; [reflexivity |]. split; [reflexivity |].
    exists (Some (mkFILE 3 "a.est" ModeR)).
    vm_compute. do 3 right. left. reflexivity.
  - apply (proj2 (proj2 (proj2 (main_exit_code (sample_parser 2 ["BEEP"] "")
                                  env_ok argv_both ∅)))
             (Some (mkFILE 3 "a.est" ModeR))).
    vm_compute. do 3 right. left. reflexivity.
  - apply (proj1 (proj2 (main_exit_code (sample_parser 0 ["BEEP"] "")
                           (env_without "a.est") argv_both ∅))).
    reflexivity.
  - apply (proj1 (proj2 (proj2 (main_exit_code (sample_parser 0 ["BEEP"] "")
                                  (env_without "b.mwasm") argv_both ∅)))).
    reflexivity.
Defined.

(** C3, as the specification words it, fails when a file does not open: with
    an input that cannot be read, [main] reports through [perror] and leaves
    at once; standard error holds no line starting with [falha] and there is
    no output file to end with [HALT]. *)
Lemma open_failure_breaks_contract :
  ~ failure_contract (sample_parser 0 [] "") (env_without "a.est") argv_input ∅.
Proof.
  unfold failure_contract. intros H.
  destruct H as [_ [text [Ht _]]]; [vm_compute; discriminate |].
  vm_compute in Ht. discriminate Ht.
Qed.

(** C3, amended.  When both files open and [yyparse] returns non-zero, [main]
    returns that value and prints the line [falha] on standard error after
    the parser's own diagnostics (it is the last line there when these end
    their lines); the output file, which held the banner when the parser was
    called, holds after it the very lines this call emitted and then the
    line [HALT].  When the input or the output does not open, [main] returns
    1, standard error holds the [perror] line for that path instead, and
    nothing is written to any file. *)
Theorem main_failure_report (yyparse : Parser) (env : Env)
    (argv : list string) (d : gmap string string) :
  let s := final_state yyparse env argv d in
  (forall y res, In (EvYyparse y res) (trace s) -> res <> 0 ->
     exit_code yyparse env argv d = res /\
     In (EvFprintf stderr (falha +:+ nl)) (trace s) /\
     exists s_call post,
       trace s = trace s_call ++ EvYyparse y res :: post /\
       yyin s_call = y /\ yy_res (yyparse s_call) = res /\
       err_text s_call = "" /\
       disk s_call !! out_name_of argv = Some (banner +:+ nl) /\
       err_text s = yy_diag (yyparse s_call) +:+ falha +:+ nl /\
       (whole_lines (yy_diag (yyparse s_call)) = true ->
        last (lines (err_text s)) = Some falha) /\
       disk s !! out_name_of argv =
         Some (banner +:+ nl +:+ unlines (yy_emitted (yyparse s_call)) +:+
               "HALT" +:+ nl) /\
       last (lines (banner +:+ nl +:+ unlines (yy_emitted (yyparse s_call)) +:+
                    "HALT" +:+ nl)) = Some "HALT") /\
  (forall name why,
     in_name_of argv = Some name -> env name ModeR = Some why ->
     exit_code yyparse env argv d = 1 /\
     err_text s = perror_line name why /\ disk s = d /\
     trace s = [EvFopen name ModeR None; EvPerror name]) /\
  (forall why,
     input_opens env argv = true -> env (out_name_of argv) ModeW = Some why ->
     exit_code yyparse env argv d = 1 /\
     err_text s = perror_line (out_name_of argv) why /\ disk s = d /\
     forall f text, ~ In (EvFprintf f text) (trace s)).
Proof.
  cbn zeta. unfold input_opens.
  run_paths yyparse env argv; rewrite ?Hr; cbn [bool_decide decide_rel].
  all: split; [| split]; try solve [close_path].
  all: try solve [intros; simplify_eq; rewrite ?append_nil_l; repeat split;
                  try reflexivity; intros ? ? HIn; in_cases HIn].
  all: intros y res HIn Hne; in_cases HIn; try congruence.
  all: split; [reflexivity |]; split; [find_in |].
  all: exists s_call; fold o; eexists.
  all: split; [reflexivity |].
  all: split; [reflexivity |]; split; [reflexivity |]; split; [reflexivity |].
  all: split; [unfold s_call; reduce_state;
               rewrite !lookup_alter_eq, lookup_insert_eq;
               cbn [fmap option_fmap option_map]; now rewrite append_nil_l |].
  all: split; [now rewrite append_nil_l |].
  all: split; [intros Hd; rewrite append_nil_l; now apply last_lines_whole |].
  all: destruct (output_text_shape (yy_emitted o)) as (Ht & _ & Hl).
  all: split; [| exact Hl].
  all: rewrite !lookup_alter_eq, lookup_insert_eq;
       cbn [fmap option_fmap option_map]; f_equal; exact Ht.
Qed.

Lemma main_failure_report_witness :
  In (EvYyparse (Some (mkFILE 3 "a.est" ModeR)) 1)
     (trace (final_state (sample_parser 1 ["BEEP"] ("erro" +:+ nl)) env_ok
               argv_both ∅)) /\
  exit_code (sample_parser 1 ["BEEP"] ("erro" +:+ nl)) env_ok argv_both ∅ = 1 /\
  In (EvFprintf stderr (falha +:+ nl))
     (trace (final_state (sample_parser 1 ["BEEP"] ("erro" +:+ nl)) env_ok
               argv_both ∅)) /\
  err_text (final_state (sample_parser 1 ["BEEP"] ("erro" +:+ nl)) env_ok
              argv_both ∅) = ("erro" +:+ nl) +:+ falha +:+ nl /\
  last (lines (err_text (final_state (sample_parser 1 ["BEEP"] ("erro" +:+ nl))
                           env_ok argv_both ∅))) = Some falha /\
  disk (final_state (sample_parser 1 ["BEEP"] ("erro" +:+ nl)) env_ok
          argv_both ∅) !! "b.mwasm" =
    Some (banner +:+ nl +:+ unlines ["BEEP"] +:+ "HALT" +:+ nl).
Proof.
  assert (H : In (EvYyparse (Some (mkFILE 3 "a.est" ModeR)) 1)
                (trace (final_state (sample_parser 1 ["BEEP"] ("erro" +:+ nl))
                          env_ok argv_both ∅))).
  { vm_compute. do 3 right. left. reflexivity. }
  split; [exact H |].
  destruct (proj1 (main_failure_report (sample_parser 1 ["BEEP"] ("erro" +:+ nl))
                     env_ok argv_both ∅) _ _ H ltac:(discriminate))
    as (Hc & Hf & s_call & post & _ & _ & _ & _ & _ & Herr & Hlast & Hdisk & _).
  split; [exact Hc |]. split; [exact Hf |]. split; [exact Herr |].
  split; [apply Hlast; reflexivity | exact Hdisk].
Defined.







(** C9. When [argv[1]] is given and does not open, [main] returns 1 right
    after [perror]: the only calls are that [fopen] and [perror], [out] stays
    null, and the disk is as it was (no output file, no banner, no [HALT]). *)
Theorem main_input_failure (yyparse : Parser) (env : Env)
    (argv : list string) (d : gmap string string) (name why : string) :
  argv !! 1%nat = Some name -> env name ModeR = Some why ->
  let s := final_state yyparse env argv d in
  exit_code yyparse env argv d = 1 /\
  trace s = [EvFopen name ModeR None; EvPerror name] /\
  err_text s = perror_line name why /\
  out s = None /\
  disk s = d.
Proof.
  intros Ha Hfail. cbn zeta. rewrite <- in_name_of_lookup in Ha.
  run_paths yyparse env argv; simplify_eq.
  all: rewrite ?append_nil_l; repeat split; reflexivity.
Qed.

Lemma main_input_failure_witness :
  argv_input !! 1%nat = Some "a.est" /\
  env_without "a.est" "a.est" ModeR = Some "No such file or directory" /\
  exit_code (sample_parser 0 ["BEEP"] "") (env_without "a.est") argv_input ∅ = 1 /\
  disk (final_state (sample_parser 0 ["BEEP"] "") (env_without "a.est")
          argv_input ∅) = ∅.
Proof.
  split; [reflexivity |]. split; [reflexivity |].
  pose proof (main_input_failure (sample_parser 0 ["BEEP"] "")
                (env_without "a.est") argv_input ∅ "a.est"
                "No such file or directory" eq_refl eq_refl) as H.
  cbn zeta in H. destruct H as (H1 & _ & _ & _ & H5). split; assumption.
Defined.

(** C10. Two command lines that agree on [argv[1]] and [argv[2]] (present or
    absent alike) make [main] behave alike from any state: same exit code,
    same final state, hence the same files and the same standard error. *)
Theorem main_ignores_extra_arguments (yyparse : Parser) (env : Env)
    (argv argv' : list string) (s : State) :
  argv !! 1%nat = argv' !! 1%nat -> argv !! 2%nat = argv' !! 2%nat ->
  run_main yyparse env argv s = run_main yyparse env argv' s /\
  (forall d,
     exit_code yyparse env argv d = exit_code yyparse env argv' d /\
     disk (final_state yyparse env argv d) =
       disk (final_state yyparse env argv' d) /\
     err_text (final_state yyparse env argv d) =
       err_text (final_state yyparse env argv' d)).
Proof.
  intros H1 H2.
  assert (E : forall s0,
             run_main yyparse env argv s0 = run_main yyparse env argv' s0).
  { intros s0. unfold run_main, main.
    rewrite !in_name_of_lookup, !out_name_of_lookup, H1, H2. reflexivity. }
  split; [apply E |]. intros d. unfold exit_code, final_state. now rewrite E.
Qed.

Lemma main_ignores_extra_arguments_witness :
  argv_both !! 1%nat = (argv_both ++ ["-v"; "x"]) !! 1%nat /\
  argv_both !! 2%nat = (argv_both ++ ["-v"; "x"]) !! 2%nat /\
  run_main (sample_parser 0 ["BEEP"] "") env_ok argv_both (init_state ∅) =
  run_main (sample_parser 0 ["BEEP"] "") env_ok (argv_both ++ ["-v"; "x"])
    (init_state ∅).
Proof.
  split; [reflexivity |]. split; [reflexivity |].
  exact (proj1 (main_ignores_extra_arguments (sample_parser 0 ["BEEP"] "")
                  env_ok argv_both (argv_both ++ ["-v"; "x"]) (init_state ∅)
                  eq_refl eq_refl)).
Defined.

End DriverFacts.

(** ** The token kinds *)

Module TokensFacts.

Import Tokens.

(** The enumerators have distinct values. *)
Lemma token_code_inj (t1 t2 : yytokentype) :
  token_code t1 = token_code t2 -> t1 = t2.
Proof. destruct t1, t2; intros H; first [reflexivity | discriminate H]. Qed.

(** The tokens of the grammar are numbered from 258 on, without gaps. *)
Lemma token_code_range (t : yytokentype) :
  token_code t = -2 \/ token_code t = 0 \/ 256 <= token_code t <= 305.
Proof. destruct t; cbn; lia. Qed.

(** The unit suffixes are ten consecutive tokens. *)
Lemma unit_token_range (u : Esteira.unit_suffix) :
  286 <= token_code (Esteira.unit_token u) <= 295.
Proof. destruct u; cbn; lia. Qed.

End TokensFacts.

(** ** The translator *)

Module EsteiraFacts.

Import Text TextFacts Esteira.
Local Open Scope se_scope.

Lemma bind_eq {S E A B} (m : SE S E A) (k : A -> SE S E B) (s : S) :
  bind m k s = match m s with
               | (inl a, s') => k a s'
               | (inr e, s') => (inr e, s')
               end.
Proof. reflexivity. Qed.

Lemma omap_cons {A B} (f : A -> option B) (x : A) (l : list A) :
  omap f (x :: l) = match f x with
                    | Some y => y :: omap f l
                    | None => omap f l
                    end.
Proof. reflexivity. Qed.

(** *** Plain statements *)

Lemma mnemonic_one_line (s : stmt) (l : string) :
  mnemonic s = Some l -> one_line l = true.
Proof. destruct s; intros H; inversion H; reflexivity. Qed.

(** A block of plain statements emits their mnemonics, takes no label and
    cannot fail. *)
Lemma compile_plain (fmt : float -> string) (stmts : list stmt) (s : CState) :
  forallb plain_stmt stmts = true ->
  fst (compile_block stmts s) = inl tt /\
  symtab (snd (compile_block stmts s)) = symtab s /\
  next_label (snd (compile_block stmts s)) = next_label s /\
  listing fmt (code (snd (compile_block stmts s))) =
  listing fmt (code s) ++ omap mnemonic stmts.
Proof.
  revert s. induction stmts as [|st stmts IH]; intros s H.
  - cbn. rewrite app_nil_r. auto.
  - cbn [forallb] in H. apply andb_true_iff in H as [Hst Hrest].
    cbn [compile_block]. rewrite bind_eq.
    destruct st; try discriminate Hst; cbn [compile_stmt emit modify].
    all: match goal with
         | |- context [compile_block ?b ?s'] =>
             destruct (IH s' Hrest) as (E1 & E2 & E3 & E4);
             destruct (compile_block b s') as [r s2]
         end.
    all: cbn [fst snd] in *; subst r; rewrite E2, E3, E4.
    all: cbn [code symtab next_label].
    all: unfold listing; rewrite map_app, <- app_assoc; auto.
Qed.

Lemma omap_mnemonic_one_line (stmts : list stmt) :
  forallb one_line (omap mnemonic stmts) = true.
Proof.
  induction stmts as [|st stmts IH]; [reflexivity |].
  rewrite omap_cons. destruct (mnemonic st) as [l|] eqn:E; [| exact IH].
  cbn [forallb]. now rewrite (mnemonic_one_line _ _ E), IH.
Qed.

Lemma plain_mnemonics (stmts : list stmt) :
  forallb plain_stmt stmts = true ->
  Forall2 (fun s l => mnemonic s = Some l) stmts (omap mnemonic stmts).
Proof.
  induction stmts as [|st stmts IH]; intros H; [constructor |].
  cbn [forallb] in H. apply andb_true_iff in H as [Hst Hrest].
  unfold plain_stmt in Hst. rewrite omap_cons.
  destruct (mnemonic st) as [l|] eqn:E; [| discriminate].
  constructor; [exact E | exact (IH Hrest)].
Qed.

(** *** Unit normalisation *)







(** *** Labels *)

Local Open Scope nat_scope.

Lemma defs_app (c1 c2 : list instr) : defs (c1 ++ c2) = defs c1 ++ defs c2.
Proof. apply omap_app. Qed.
Lemma refs_app (c1 c2 : list instr) : refs (c1 ++ c2) = refs c1 ++ refs c2.
Proof. apply omap_app. Qed.
Lemma mentions_app (c1 c2 : list instr) :
  mentions (c1 ++ c2) = mentions c1 ++ mentions c2.
Proof. apply omap_app. Qed.

Lemma issue_order_app (a : nat) (l1 l2 : list nat) :
  issue_order a (l1 ++ l2) =
  match issue_order a l1 with
  | Some m => issue_order m l2
  | None => None
  end.
Proof.
  revert a. induction l1 as [|x l1 IH]; intros a; [reflexivity |].
  cbn [app issue_order]. destruct (x <? a); [apply IH |].
  destruct (x =? a); [apply IH | reflexivity].
Qed.

Lemma issue_order_new (a : nat) (rest : list nat) :
  issue_order a (a :: rest) = issue_order (S a) rest.
Proof. cbn [issue_order]. now rewrite Nat.ltb_irrefl, Nat.eqb_refl. Qed.

Lemma issue_order_old (a l : nat) (rest : list nat) :
  l < a -> issue_order a (l :: rest) = issue_order a rest.
Proof. intros H. cbn [issue_order]. apply Nat.ltb_lt in H. now rewrite H. Qed.

(** Bounds of the labels of a segment. *)
Ltac mem_bounds :=
  repeat match goal with
         | H : _ ∈ _ ++ _ |- _ => apply elem_of_app in H; destruct H
         | H : _ ∈ _ :: _ |- _ => apply elem_of_cons in H; destruct H
         | H : _ ∈ [] |- _ => apply elem_of_nil in H; destruct H
         | H : ?l ∈ refs ?c, S : Seg _ _ _ ?c |- _ =>
             apply (seg_refs _ _ _ _ S) in H
         | H : ?l ∈ defs ?c, S : Seg _ _ _ ?c |- _ =>
             apply (seg_defs _ _ _ _ S) in H
         end;
  subst; try lia.

Ltac seg_nodup :=
  repeat first
    [ apply NoDup_nil_2
    | match goal with
      | S : Seg _ _ _ ?c |- NoDup (defs ?c) => exact (seg_nodup _ _ _ _ S)
      end
    | apply NoDup_app; split; [| split]
    | apply NoDup_cons; split
    | let H := fresh "Hmem" in
      let H' := fresh "Hmem" in
      (intros ? H H' || intros H); mem_bounds ].

Ltac seg_order :=
  rewrite ?mentions_app; cbn [mentions omap list_omap mention_of app];
  repeat first
    [ rewrite issue_order_app
    | match goal with
      | S : Seg _ _ _ ?c |- context [issue_order _ (mentions ?c)] =>
          rewrite (seg_order _ _ _ _ S)
      end
    | rewrite issue_order_new
    | rewrite issue_order_old by (pose proof I; mem_bounds; lia) ];
  try reflexivity.

Lemma Seg_nil (ok : bool) (a : nat) : Seg ok a a [].
Proof.
  constructor.
  - lia.
  - reflexivity.
  - intros l H. cbn in H. mem_bounds.
  - intros l H. cbn in H. mem_bounds.
  - constructor.
  - intros _ l H. lia.
Qed.

Lemma plain_instr (i : instr) :
  mention_of i = None -> ref_of i = None /\ def_of i = None.
Proof. destruct i; try discriminate; split; reflexivity. Qed.

Lemma Seg_plain (ok : bool) (a : nat) (i : instr) :
  mention_of i = None -> Seg ok a a [i].
Proof.
  intros H. destruct (plain_instr i H) as [Hr Hd].
  constructor; unfold refs, defs, mentions; cbn [omap list_omap];
    rewrite ?H, ?Hr, ?Hd.
  - lia.
  - reflexivity.
  - intros l Hl. mem_bounds.
  - intros l Hl. mem_bounds.
  - constructor.
  - intros _ l Hl. lia.
Qed.

Lemma Seg_fail (ok : bool) (a b : nat) (c : list instr) :
  Seg ok a b c -> Seg false a b c.
Proof. intros []. constructor; try assumption. discriminate. Qed.

Lemma Seg_app (ok : bool) (a m b : nat) (c1 c2 : list instr) :
  Seg true a m c1 -> Seg ok m b c2 -> Seg ok a b (c1 ++ c2).
Proof.
  intros S1 S2. pose proof (seg_le _ _ _ _ S1). pose proof (seg_le _ _ _ _ S2).
  constructor.
  - lia.
  - seg_order.
  - rewrite refs_app. intros l Hl. mem_bounds.
  - rewrite defs_app. intros l Hl. mem_bounds.
  - rewrite defs_app. seg_nodup.
  - intros Hok l Hl. rewrite defs_app, elem_of_app.
    destruct (decide (l < m)).
    + left. apply (seg_all _ _ _ _ S1); [reflexivity | lia].
    + right. apply (seg_all _ _ _ _ S2); [exact Hok | lia].
Qed.

Lemma jump_JZ : jump_to JZ.  Proof. intros l. repeat split. Qed.
Lemma jump_JNZ : jump_to JNZ.  Proof. intros l. repeat split. Qed.

Ltac refold :=
  repeat match goal with
         | |- context [omap mention_of ?c] =>
             change (omap mention_of c) with (mentions c)
         | |- context [omap ref_of ?c] => change (omap ref_of c) with (refs c)
         | |- context [omap def_of ?c] => change (omap def_of c) with (defs c)
         end.

Ltac seg_lists J HJ :=
  rewrite ?refs_app, ?defs_app, ?mentions_app;
  unfold refs, defs, mentions; cbn [omap list_omap];
  repeat match goal with
         | |- context [mention_of (J ?l)] => rewrite (proj1 (HJ l))
         | |- context [ref_of (J ?l)] => rewrite (proj1 (proj2 (HJ l)))
         | |- context [def_of (J ?l)] => rewrite (proj2 (proj2 (HJ l)))
         end;
  cbn [mention_of ref_of def_of];
  refold.

Ltac seg_cover := rewrite ?elem_of_app, ?elem_of_cons; auto 10.

Lemma Seg_branch_then (J : nat -> instr) (ok : bool) (a a1 a2 : nat)
    (cx cy : list instr) :
  jump_to J -> Seg true a a1 cx -> Seg ok (S a1) a2 cy ->
  Seg false a a2 (cx ++ [J a1] ++ cy).
Proof.
  intros HJ Sx Sy.
  pose proof (seg_le _ _ _ _ Sx). pose proof (seg_le _ _ _ _ Sy).
  constructor.
  - lia.
  - seg_lists J HJ. seg_order.
  - seg_lists J HJ. intros l Hl. mem_bounds.
  - seg_lists J HJ. intros l Hl. mem_bounds.
  - seg_lists J HJ. seg_nodup.
  - discriminate.
Qed.

Lemma Seg_branch (J : nat -> instr) (ok : bool) (a a1 a2 b : nat)
    (cx cy cz : list instr) :
  jump_to J -> Seg true a a1 cx -> Seg true (S a1) a2 cy ->
  Seg ok (S a2) b cz ->
  Seg ok a b (cx ++ [J a1] ++ cy ++ [JMP a2] ++ [LABEL a1] ++ cz ++
              (if ok then [LABEL a2] else [])).
Proof.
  intros HJ Sx Sy Sz.
  pose proof (seg_le _ _ _ _ Sx). pose proof (seg_le _ _ _ _ Sy).
  pose proof (seg_le _ _ _ _ Sz).
  constructor.
  - lia.
  - destruct ok; seg_lists J HJ; seg_order.
  - destruct ok; seg_lists J HJ; intros l Hl; mem_bounds.
  - destruct ok; seg_lists J HJ; intros l Hl; mem_bounds.
  - destruct ok; seg_lists J HJ; seg_nodup.
  - intros ->. seg_lists J HJ. intros l Hl.
    destruct (decide (l < a1)); [| destruct (decide (l = a1));
      [| destruct (decide (l < a2)); [| destruct (decide (l = a2))]]].
    + pose proof (seg_all _ _ _ _ Sx eq_refl l ltac:(lia)). seg_cover.
    + subst. seg_cover.
    + pose proof (seg_all _ _ _ _ Sy eq_refl l ltac:(lia)). seg_cover.
    + subst. seg_cover.
    + pose proof (seg_all _ _ _ _ Sz eq_refl l ltac:(lia)). seg_cover.
Qed.

Lemma Seg_loop_cond (ok : bool) (a a1 : nat) (cx : list instr) :
  Seg ok (S a) a1 cx -> Seg false a a1 ([LABEL a] ++ cx).
Proof.
  intros Sx. pose proof (seg_le _ _ _ _ Sx).
  constructor.
  - lia.
  - seg_lists JZ jump_JZ. seg_order.
  - seg_lists JZ jump_JZ. intros l Hl. mem_bounds.
  - seg_lists JZ jump_JZ. intros l Hl. mem_bounds.
  - seg_lists JZ jump_JZ. seg_nodup.
  - discriminate.
Qed.

Lemma Seg_loop (ok : bool) (a a1 b : nat) (cx cy : list instr) :
  Seg true (S a) a1 cx -> Seg ok (S a1) b cy ->
  Seg ok a b ([LABEL a] ++ cx ++ [JZ a1] ++ cy ++
              (if ok then [JMP a; LABEL a1] else [])).
Proof.
  intros Sx Sy.
  pose proof (seg_le _ _ _ _ Sx). pose proof (seg_le _ _ _ _ Sy).
  constructor.
  - lia.
  - destruct ok; seg_lists JZ jump_JZ; seg_order.
  - destruct ok; seg_lists JZ jump_JZ; intros l Hl; mem_bounds.
  - destruct ok; seg_lists JZ jump_JZ; intros l Hl; mem_bounds.
  - destruct ok; seg_lists JZ jump_JZ; seg_nodup.
  - intros ->. seg_lists JZ jump_JZ. intros l Hl.
    destruct (decide (l = a)); [| destruct (decide (l < a1));
      [| destruct (decide (l = a1))]].
    + subst. seg_cover.
    + pose proof (seg_all _ _ _ _ Sx eq_refl l ltac:(lia)). seg_cover.
    + subst. seg_cover.
    + pose proof (seg_all _ _ _ _ Sy eq_refl l ltac:(lia)). seg_cover.
Qed.

Lemma Tracks_ret {A} (a : A) : Tracks (ret a).
Proof.
  intros s. exists []. cbn. rewrite app_nil_r.
  split; [reflexivity | apply Seg_nil].
Qed.

Lemma Tracks_leave {A} (e : error) : Tracks (leave e : T A).
Proof.
  intros s. exists []. cbn. rewrite app_nil_r.
  split; [reflexivity | apply Seg_nil].
Qed.

Lemma Tracks_emit (i : instr) : mention_of i = None -> Tracks (emit i).
Proof.
  intros H s. exists [i]. cbn. split; [reflexivity | now apply Seg_plain].
Qed.

Lemma Tracks_bind {A B} (m : T A) (k : A -> T B) :
  Tracks m -> (forall a, Tracks (k a)) -> Tracks (bind m k).
Proof.
  intros Hm Hk s. rewrite bind_eq.
  destruct (Hm s) as (c1 & E1 & S1).
  destruct (m s) as [[a|e] s1]; cbn [fst snd is_ok] in *.
  - destruct (Hk a s1) as (c2 & E2 & S2). exists (c1 ++ c2). split.
    + rewrite E2, E1. now rewrite app_assoc.
    + eapply Seg_app; eassumption.
  - exists c1. split; assumption.
Qed.

Lemma Tracks_sym_lookup (x : string) : Tracks (sym_lookup x).
Proof.
  intros s. exists []. unfold sym_lookup. rewrite app_nil_r.
  destruct (symtab s !! x); cbn; (split; [reflexivity | apply Seg_nil]).
Qed.

Lemma Tracks_sym_declare (x : string) (k : kind) (t : option type) (sl : slot) :
  Tracks (sym_declare x k t sl).
Proof.
  intros s. exists []. unfold sym_declare. rewrite app_nil_r.
  destruct (symtab s !! x); cbn; (split; [reflexivity | apply Seg_nil]).
Qed.

Lemma Tracks_branch (J : nat -> instr) (X Y Z : T unit) :
  jump_to J -> Tracks X -> Tracks Y -> Tracks Z ->
  Tracks (X ;;
          l1 <- new_label ;; emit (J l1) ;;
          Y ;;
          l2 <- new_label ;; emit (JMP l2) ;;
          emit (LABEL l1) ;;
          Z ;;
          emit (LABEL l2)).
Proof.
  intros HJ HX HY HZ s.
  rewrite bind_eq.
  destruct (HX s) as (cx & Ex & Sx).
  destruct (X s) as [[[]|e] s1]; cbn [fst snd is_ok] in *;
    [| exists cx; split; assumption].
  rewrite bind_eq. cbn [new_label]. rewrite bind_eq. cbn [emit modify].
  rewrite bind_eq.
  match goal with
  | |- context [Y ?s'] =>
      destruct (HY s') as (cy & Ey & Sy);
      destruct (Y s') as [[[]|e] s2]
  end;
    cbn [fst snd is_ok code next_label] in *.
  - rewrite bind_eq. cbn [new_label]. rewrite bind_eq. cbn [emit modify].
    rewrite bind_eq. cbn [emit modify]. rewrite bind_eq.
    match goal with
    | |- context [Z ?s'] =>
        destruct (HZ s') as (cz & Ez & Sz);
        destruct (Z s') as [[[]|e] s3]
    end;
      cbn [fst snd is_ok code next_label] in *.
    + cbn [emit modify fst snd code next_label].
      exists (cx ++ [J (next_label s1)] ++ cy ++ [JMP (next_label s2)] ++
              [LABEL (next_label s1)] ++ cz ++ [LABEL (next_label s2)]).
      split.
      * rewrite Ez, Ey, Ex. now rewrite <- !app_assoc.
      * apply (Seg_branch J true); assumption.
    + exists (cx ++ [J (next_label s1)] ++ cy ++ [JMP (next_label s2)] ++
              [LABEL (next_label s1)] ++ cz ++ []).
      split.
      * rewrite Ez, Ey, Ex. now rewrite app_nil_r, <- !app_assoc.
      * apply (Seg_branch J false); assumption.
  - exists (cx ++ [J (next_label s1)] ++ cy). split.
    + rewrite Ey, Ex. now rewrite <- !app_assoc.
    + eapply Seg_branch_then; eassumption.
Qed.

Lemma Tracks_loop (X Y : T unit) :
  Tracks X -> Tracks Y ->
  Tracks (l1 <- new_label ;; emit (LABEL l1) ;;
          X ;;
          l2 <- new_label ;; emit (JZ l2) ;;
          Y ;;
          emit (JMP l1) ;;
          emit (LABEL l2)).
Proof.
  intros HX HY s.
  rewrite bind_eq. cbn [new_label]. rewrite bind_eq. cbn [emit modify].
  rewrite bind_eq.
  match goal with
  | |- context [X ?s'] =>
      destruct (HX s') as (cx & Ex & Sx);
      destruct (X s') as [[[]|e] s1]
  end;
    cbn [fst snd is_ok code next_label] in *.
  - rewrite bind_eq. cbn [new_label]. rewrite bind_eq. cbn [emit modify].
    rewrite bind_eq.
    match goal with
    | |- context [Y ?s'] =>
        destruct (HY s') as (cy & Ey & Sy);
        destruct (Y s') as [[[]|e] s2]
    end;
      cbn [fst snd is_ok code next_label] in *.
    + rewrite bind_eq. cbn [emit modify fst snd code next_label].
      exists ([LABEL (next_label s)] ++ cx ++ [JZ (next_label s1)] ++ cy ++
              [JMP (next_label s); LABEL (next_label s1)]).
      split.
      * rewrite Ey, Ex. now rewrite <- !app_assoc.
      * apply (Seg_loop true); assumption.
    + exists ([LABEL (next_label s)] ++ cx ++ [JZ (next_label s1)] ++ cy ++ []).
      split.
      * rewrite Ey, Ex. now rewrite app_nil_r, <- !app_assoc.
      * apply (Seg_loop false); assumption.
  - exists ([LABEL (next_label s)] ++ cx). split.
    + rewrite Ex. now rewrite <- !app_assoc.
    + eapply Seg_loop_cond; eassumption.
Qed.

Ltac tracks :=
  repeat first
    [ assumption
    | apply Tracks_ret
    | apply Tracks_leave
    | apply Tracks_sym_lookup
    | apply Tracks_sym_declare
    | apply Tracks_emit; reflexivity
    | apply Tracks_bind; [| intros ?] ].

Lemma arith_instr_plain (op : binop) : mention_of (arith_instr op) = None.
Proof. now destruct op. Qed.

Lemma cmp_instr_plain (op : cmpop) : mention_of (cmp_instr op) = None.
Proof. now destruct op. Qed.

Lemma Tracks_compile_expr (e : expr) : Tracks (compile_expr e).
Proof.
  induction e; cbn [compile_expr];
    first [ apply (Tracks_branch JZ); [apply jump_JZ | tracks ..]
          | apply (Tracks_branch JNZ); [apply jump_JNZ | tracks ..]
          | tracks ].
  - apply Tracks_emit, arith_instr_plain.
  - apply Tracks_emit, cmp_instr_plain.
Qed.

Lemma Tracks_compile_args (args : list expr) : Tracks (compile_args args).
Proof.
  induction args as [|e args IH]; cbn [compile_args]; tracks.
  apply Tracks_compile_expr.
Qed.

Lemma Tracks_compile_esperar (e : expr) (u : option unit_suffix) :
  Tracks (compile_esperar e u).
Proof.
  pose proof (Tracks_compile_expr e) as He.
  unfold compile_esperar. apply Tracks_bind; [| intros; tracks].
  destruct u as [u|].
  - destruct e as [k [?|]|q [?|]| | | | | | | | | | | |]; tracks.
    all: destruct (time_unit u); tracks.
  - destruct e as [k [u'|]|q [u'|]| | | | | | | | | | | |]; tracks.
    all: destruct (time_unit u'); tracks.
Qed.

(** Induction on statements, with the blocks of [SE] and [ENQUANTO]. *)
Lemma stmt_block_ind (P : stmt -> Prop) :
  (forall x e, P (SAssign x e)) ->
  (forall c t e, Forall P t -> Forall P e -> P (SSe c t e)) ->
  (forall c b, Forall P b -> P (SEnquanto c b)) ->
  (forall args, P (SMostrar args)) ->
  P SBip ->
  (forall e u, P (SEsperar e u)) ->
  P SLigar -> P SDesligar -> P SIniciar ->
  (forall x e, P (SDefinir x e)) ->
  P SParar ->
  forall s, P s.
Proof.
  intros HA HS HW HM HB HE HL HD HI HDf HP.
  fix IH 1. intros s.
  assert (Hblock : forall b : list stmt, Forall P b).
  { fix IHb 1. intros [|s1 b]; constructor; [apply IH | apply IHb]. }
  clear IH.
  destruct s;
    [ apply HA | apply HS; apply Hblock | apply HW; apply Hblock | apply HM
    | exact HB | apply HE | exact HL | exact HD | exact HI | apply HDf
    | exact HP ].
Qed.

Lemma Tracks_compile_block (b : list stmt) :
  Forall (fun s => Tracks (compile_stmt s)) b -> Tracks (compile_block b).
Proof.
  induction 1 as [|s b Hs Hb IH]; cbn [compile_block]; tracks.
Qed.

Lemma compile_stmt_se (c : expr) (t e : list stmt) :
  compile_stmt (SSe c t e) =
  (compile_expr c ;;
   lelse <- new_label ;; emit (JZ lelse) ;;
   compile_block t ;;
   lend <- new_label ;; emit (JMP lend) ;;
   emit (LABEL lelse) ;;
   compile_block e ;;
   emit (LABEL lend)).
Proof. reflexivity. Qed.

Lemma compile_stmt_enquanto (c : expr) (b : list stmt) :
  compile_stmt (SEnquanto c b) =
  (ltop <- new_label ;; emit (LABEL ltop) ;;
   compile_expr c ;;
   lend <- new_label ;; emit (JZ lend) ;;
   compile_block b ;;
   emit (JMP ltop) ;;
   emit (LABEL lend)).
Proof. reflexivity. Qed.

Lemma Tracks_compile_stmt (s : stmt) : Tracks (compile_stmt s).
Proof.
  induction s as [x e | c t e Ht He | c b Hb | args | | e u | | | | x e | ]
    using stmt_block_ind.
  - cbn [compile_stmt]. tracks. apply Tracks_compile_expr.
  - rewrite compile_stmt_se.
    apply (Tracks_branch JZ);
      [apply jump_JZ | apply Tracks_compile_expr
       | now apply Tracks_compile_block ..].
  - rewrite compile_stmt_enquanto.
    apply Tracks_loop;
      [apply Tracks_compile_expr | now apply Tracks_compile_block].
  - cbn [compile_stmt]. tracks. apply Tracks_compile_args.
  - cbn [compile_stmt]. tracks.
  - apply Tracks_compile_esperar.
  - cbn [compile_stmt]. tracks.
  - cbn [compile_stmt]. tracks.
  - cbn [compile_stmt]. tracks.
  - cbn [compile_stmt]. tracks. apply Tracks_compile_expr.
  - cbn [compile_stmt]. tracks.
Qed.

Lemma Tracks_compile_decls (ds : list decl) : Tracks (compile_decls ds).
Proof.
  induction ds as [|d ds IH]; cbn [compile_decls]; tracks.
  destruct d as [t x [e|]| |]; cbn [compile_decl]; tracks.
  apply Tracks_compile_expr.
Qed.

Lemma Tracks_compile_program (p : program) : Tracks (compile_program p).
Proof.
  unfold compile_program. tracks; [apply Tracks_compile_decls |].
  apply Tracks_compile_block, Forall_forall. intros s _. apply Tracks_compile_stmt.
Qed.

Lemma translate_Seg (p : program) :
  Seg (succeeds p) 0 (next_label (snd (translate p))) (emitted p).
Proof.
  destruct (Tracks_compile_program p init_cstate) as (c & Ec & Sc).
  unfold succeeds, emitted, translate. cbn [code init_cstate app] in Ec.
  rewrite Ec. exact Sc.
Qed.


(** *** Lines of a listing *)

Lemma append_char_inj (s1 s2 : string) (c : ascii) :
  s1 +:+ String c "" = s2 +:+ String c "" -> s1 = s2.
Proof.
  revert s2. induction s1 as [|x s1 IH]; intros [|y s2] H;
    rewrite ?append_cons, ?append_nil_l in H.
  - reflexivity.
  - injection H as _ H. destruct s2; discriminate H.
  - injection H as _ H. destruct s1; discriminate H.
  - injection H as -> H. f_equal. now apply IH.
Qed.

Lemma show_nat_inj (a b : nat) : show_nat a = show_nat b -> a = b.
Proof.
  unfold show_nat. intros H. apply Unsigned.to_uint_inj.
  pose proof (NilEmpty.usu (Nat.to_uint a)) as Ha.
  rewrite H, NilEmpty.usu in Ha. congruence.
Qed.

Lemma show_nat_not_letter (k : nat) (rest : string) :
  show_nat k +:+ ":" <> String "O" rest.
Proof.
  unfold show_nat. destruct (Nat.to_uint k); cbn [NilEmpty.string_of_uint];
    rewrite ?append_cons, ?append_nil_l; discriminate.
Qed.

Section Render.

Variable fmt : float -> string.

Ltac heads H := unfold label_name in H; rewrite ?append_cons, ?append_nil_l in H.

Lemma render_label_inv (i : instr) (k : nat) :
  render fmt i = label_name k +:+ ":" -> i = LABEL k.
Proof.
  destruct i; cbn [render]; intros H; heads H; try discriminate H.
  - injection H as H. symmetry in H. now apply show_nat_not_letter in H.
  - injection H as H. apply append_char_inj, show_nat_inj in H. now subst.
Qed.

Lemma render_jz_inv (i : instr) (k : nat) :
  render fmt i = render fmt (JZ k) -> i = JZ k.
Proof.
  destruct i; cbn [render]; intros H; heads H; try discriminate H.
  injection H as H. apply show_nat_inj in H. now subst.
Qed.

Lemma render_jnz_inv (i : instr) (k : nat) :
  render fmt i = render fmt (JNZ k) -> i = JNZ k.
Proof.
  destruct i; cbn [render]; intros H; heads H; try discriminate H.
  injection H as H. apply show_nat_inj in H. now subst.
Qed.

Lemma render_jmp_inv (i : instr) (k : nat) :
  render fmt i = render fmt (JMP k) -> i = JMP k.
Proof.
  destruct i; cbn [render]; intros H; heads H; try discriminate H.
  injection H as H. apply show_nat_inj in H. now subst.
Qed.

(** The lines [Lk:] of a listing are its definitions of label [k]. *)
Lemma count_label_lines (c : list instr) (k : nat) :
  count_occ string_dec (listing fmt c) (label_name k +:+ ":") =
  count_occ Nat.eq_dec (defs c) k.
Proof.
  induction c as [|i c IH]; [reflexivity |].
  unfold listing, defs in *. cbn [map]. rewrite omap_cons.
  destruct (string_dec (render fmt i) (label_name k +:+ ":")) as [E | E].
  - rewrite (count_occ_cons_eq _ _ E). apply render_label_inv in E. subst i.
    cbn [def_of]. rewrite (count_occ_cons_eq _ _ eq_refl). now rewrite IH.
  - rewrite (count_occ_cons_neq _ _ E).
    destruct (def_of i) as [l|] eqn:Hd; [| exact IH].
    destruct i; try discriminate Hd. injection Hd as ->.
    rewrite count_occ_cons_neq; [exact IH |].
    intros ->. apply E. reflexivity.
Qed.

(** A jump line of a listing comes from a jump of the code. *)
Lemma jump_line_ref (c : list instr) (k : nat) :
  In (render fmt (JZ k)) (listing fmt c) \/
  In (render fmt (JNZ k)) (listing fmt c) \/
  In (render fmt (JMP k)) (listing fmt c) ->
  In k (refs c).
Proof.
  unfold listing, refs. rewrite !in_map_iff.
  intros [(i & E & Hi) | [(i & E & Hi) | (i & E & Hi)]].
  - apply render_jz_inv in E. subst i. apply list_elem_of_In.
    apply list_elem_of_omap. exists (JZ k).
    split; [now apply list_elem_of_In | reflexivity].
  - apply render_jnz_inv in E. subst i. apply list_elem_of_In.
    apply list_elem_of_omap. exists (JNZ k).
    split; [now apply list_elem_of_In | reflexivity].
  - apply render_jmp_inv in E. subst i. apply list_elem_of_In.
    apply list_elem_of_omap. exists (JMP k).
    split; [now apply list_elem_of_In | reflexivity].
Qed.
End Render.

End EsteiraFacts.

(** ** The compiler: translator and driver together *)

Module CompilerFacts.

Import Text TextFacts Libc Driver DriverFacts Esteira EsteiraFacts Compiler.

Section Yyparse.

Variable fmt : float -> string.
Variable describe : error -> string.

Lemma yyparse_of_emitted (p : program) (s : State) :
  yy_emitted (yyparse_of fmt describe p s) = listing fmt (emitted p).
Proof. unfold yyparse_of, emitted. destruct (translate p). reflexivity. Qed.

(** The output file of a compilation whose files open. *)
Lemma output_lines_emitted (p : program) (env : Env) (argv : list string)
    (d : gmap string string) :
  input_opens env argv = true -> output_opens env argv = true ->
  output_lines fmt describe p env argv d (out_name_of argv) =
  Some (lines (banner +:+ nl +:+ unlines (listing fmt (emitted p)) +:+
               "HALT" +:+ nl)).
Proof.
  intros Hin Hout. unfold output_lines.
  rewrite (main_output_text _ env argv d (listing fmt (emitted p))
             (yyparse_of_emitted p) Hin Hout).
  reflexivity.
Qed.

(** C4. For a program made only of [LIGAR;], [DESLIGAR;], [BIP;],
    [INICIAR;] and [PARAR;], the translator emits one mnemonic per statement,
    in source order, and cannot fail; the output file is the banner line,
    these mnemonics and the final [HALT]. *)
Theorem plain_program_translation (name : string) (stmts : list stmt)
    (env : Env) (argv : list string) (d : gmap string string) :
  forallb plain_stmt stmts = true ->
  input_opens env argv = true -> output_opens env argv = true ->
  listing fmt (emitted (mkProgram name [] stmts)) = omap mnemonic stmts /\
  Forall2 (fun s l => mnemonic s = Some l) stmts (omap mnemonic stmts) /\
  succeeds (mkProgram name [] stmts) = true /\
  output_lines fmt describe (mkProgram name [] stmts) env argv d
    (out_name_of argv) =
  Some (banner :: omap mnemonic stmts ++ ["HALT"]).
Proof.
  intros Hplain Hin Hout.
  destruct (compile_plain fmt stmts init_cstate Hplain) as (E1 & _ & _ & E4).
  assert (Hl : listing fmt (emitted (mkProgram name [] stmts)) =
               omap mnemonic stmts) by exact E4.
  split; [exact Hl |]. split; [now apply plain_mnemonics |]. split.
  - unfold succeeds, translate, compile_program.
    cbn [prog_decls prog_stmts compile_decls].
    change (Monad.bind (Monad.ret tt) (fun _ => compile_block stmts) init_cstate)
      with (compile_block stmts init_cstate).
    now rewrite E1.
  - rewrite (output_lines_emitted _ env argv d Hin Hout), Hl. f_equal.
    apply output_text_lines, omap_mnemonic_one_line.
Qed.



(** C6, as the specification words it, fails for a compilation that aborts
    inside a control structure: [JZ L0] is in the output, [L0:] is not. *)
Lemma aborted_se_breaks_contract : ~ labels_contract aborted_se.
Proof.
  intros [H _]. specialize (H 0%nat). vm_compute in H.
  specialize (H (or_introl eq_refl)). discriminate H.
Qed.

(** C6, amended.  In every compilation the labels appear in the order L0,
    L1, ... up to the number taken, every jump refers to one of them, and no
    label is defined twice; when the compilation succeeds, every label a
    jump refers to is defined exactly once, in the listing ([Lk:] lines) as
    in the code. *)
Theorem label_discipline (p : program) :
  let c := emitted p in
  let n := next_label (snd (translate p)) in
  issue_order 0 (mentions c) = Some n /\
  (forall k, In k (refs c) -> (k < n)%nat) /\
  (forall k, (count_occ Nat.eq_dec (defs c) k <= 1)%nat) /\
  (forall k, (count_occ string_dec (listing fmt c) (label_name k +:+ ":")
              <= 1)%nat) /\
  (succeeds p = true ->
   labels_contract p /\
   forall k,
     In (render fmt (JZ k)) (listing fmt c) \/
     In (render fmt (JNZ k)) (listing fmt c) \/
     In (render fmt (JMP k)) (listing fmt c) ->
     count_occ string_dec (listing fmt c) (label_name k +:+ ":") = 1%nat).
Proof.
  cbn zeta. pose proof (translate_Seg p) as S.
  assert (Hatmost : forall k, (count_occ Nat.eq_dec (defs (emitted p)) k <= 1)%nat).
  { apply NoDup_count_occ, NoDup_ListNoDup. exact (seg_nodup _ _ _ _ S). }
  assert (Hrefs : forall k, In k (refs (emitted p)) ->
                            (k < next_label (snd (translate p)))%nat).
  { intros k Hk. apply list_elem_of_In in Hk.
    apply (seg_refs _ _ _ _ S) in Hk. lia. }
  split; [exact (seg_order _ _ _ _ S) |].
  split; [exact Hrefs |]. split; [exact Hatmost |].
  split; [intros k; rewrite count_label_lines; apply Hatmost |].
  intros Hok. rewrite Hok in S.
  assert (Hone : forall k, In k (refs (emitted p)) ->
                           count_occ Nat.eq_dec (defs (emitted p)) k = 1%nat).
  { intros k Hk.
    apply (proj1 (NoDup_count_occ' Nat.eq_dec _)
             (proj1 (NoDup_ListNoDup _) (seg_nodup _ _ _ _ S))).
    apply list_elem_of_In, (seg_all _ _ _ _ S eq_refl).
    specialize (Hrefs k Hk). lia. }
  split.
  - split; [exact Hone | exact (seg_order _ _ _ _ S)].
  - intros k Hk. rewrite count_label_lines. apply Hone.
    now apply (jump_line_ref fmt).
Qed.

End Yyparse.


Lemma label_discipline_witness :
  succeeds branch_and_loop = true /\
  labels_contract branch_and_loop /\
  count_occ string_dec (listing sample_fmt (emitted branch_and_loop)) "L3:" =
  1%nat.
Proof.
  split; [reflexivity |].
  destruct (proj2 (proj2 (proj2 (proj2
    (label_discipline sample_fmt branch_and_loop)))) eq_refl) as [Hc Hl].
  split; [exact Hc |].
  apply (Hl 3%nat). left. vm_compute. do 11 right. left. reflexivity.
Defined.

Lemma plain_program_translation_witness :
  forallb plain_stmt [SLigar; SBip; SDesligar; SParar; SIniciar] = true /\
  input_opens env_ok argv_both = true /\
  output_opens env_ok argv_both = true /\
  output_lines sample_fmt sample_describe
    (mkProgram "p" [] [SLigar; SBip; SDesligar; SParar; SIniciar])
    env_ok argv_both ∅ (out_name_of argv_both) =
  Some (banner :: omap mnemonic [SLigar; SBip; SDesligar; SParar; SIniciar]
          ++ ["HALT"]).
Proof.
  split; [reflexivity |]. split; [reflexivity |]. split; [reflexivity |].
  exact (proj2 (proj2 (proj2
    (plain_program_translation sample_fmt sample_describe "p"
       [SLigar; SBip; SDesligar; SParar; SIniciar] env_ok argv_both ∅
       eq_refl eq_refl eq_refl)))).
Defined.

End CompilerFacts.

(** ** More on the driver *)

Module DriverMoreFacts.

Import Text TextFacts Libc Driver DriverFacts Observed.

(** X1. [fopen(out_name, "w")] comes before anything is read or written:
    when both files open, what the output path held before the run has no
    influence on the exit code or on the state [main] leaves. *)
Theorem main_overwrites_output (yyparse : Parser) (env : Env)
    (argv : list string) (d : gmap string string) (old : string) :
  input_opens env argv = true -> output_opens env argv = true ->
  run_main yyparse env argv (init_state (<[out_name_of argv := old]> d)) =
  run_main yyparse env argv (init_state d).
Proof.
  unfold input_opens, output_opens, run_main, main.
  destruct (in_name_of argv) as [name|] eqn:Hin;
    [destruct (env name ModeR) eqn:Hr |];
    destruct (env (out_name_of argv) ModeW) eqn:Hw;
    try discriminate; intros _ _.
  all: cbv [bind fopen perror fclose fprintf modify get ret leave call_yyparse
            close_yyin on_out];
       rewrite ?Hr, ?Hw; reduce_state.
  all: rewrite insert_insert_eq; reflexivity.
Qed.

Lemma main_overwrites_output_witness :
  input_opens env_ok argv_both = true /\
  output_opens env_ok argv_both = true /\
  run_main (sample_parser 0 ["BEEP"] "") env_ok argv_both
    (init_state (<[out_name_of argv_both := old_text]> ∅)) =
  run_main (sample_parser 0 ["BEEP"] "") env_ok argv_both (init_state ∅).
Proof.
  split; [reflexivity |]. split; [reflexivity |].
  exact (main_overwrites_output (sample_parser 0 ["BEEP"] "") env_ok argv_both
           ∅ old_text eq_refl eq_refl).
Defined.

(** X2. Where [main] writes: each of its [fprintf] calls is either on
    [stderr], with the line [falha], or on the stream that its own
    [fopen(out_name, "w")] returned, with the banner line or the line
    [HALT]; and [out_name] is the only path it opens for writing. *)
Theorem main_write_targets (yyparse : Parser) (env : Env)
    (argv : list string) (d : gmap string string) :
  let t := trace (final_state yyparse env argv d) in
  (forall f text, In (EvFprintf f text) t ->
     (f = stderr /\ text = falha +:+ nl) \/
     (In (EvFopen (out_name_of argv) ModeW (Some f)) t /\
      (text = banner +:+ nl \/ text = "HALT" +:+ nl))) /\
  (forall path r, In (EvFopen path ModeW r) t -> path = out_name_of argv) /\
  (input_opens env argv = true -> output_opens env argv = true ->
   exists f,
     In (EvFopen (out_name_of argv) ModeW (Some f)) t /\
     omap (fun e => match e with
                    | EvFprintf g text =>
                        if (f_id g =? f_id f)%nat then Some text else None
                    | _ => None
                    end) t = [banner +:+ nl; "HALT" +:+ nl]).
Proof.
  cbn zeta. unfold input_opens, output_opens.
  run_paths yyparse env argv; rewrite ?Hr, ?Hw; cbn [bool_decide decide_rel].
  all: split; [| split].
  all: try solve [intros ? ? HIn; in_cases HIn].
  all: try solve [intros; discriminate].
  all: try solve [intros ? ? HIn; in_cases HIn; reflexivity].
  all: try solve [intros ? ? HIn; in_cases HIn;
                  first [left; split; reflexivity
                        | right; split; [find_in | auto]]].
  all: intros _ _; eexists; split; [find_in |]; reflexivity.
Qed.

Lemma main_write_targets_witness :
  input_opens env_ok argv_both = true /\
  output_opens env_ok argv_both = true /\
  exists f,
    In (EvFopen "b.mwasm" ModeW (Some f))
       (trace (final_state (sample_parser 1 ["BEEP"] "") env_ok argv_both ∅)) /\
    omap (fun e => match e with
                   | EvFprintf g text =>
                       if (f_id g =? f_id f)%nat then Some text else None
                   | _ => None
                   end)
         (trace (final_state (sample_parser 1 ["BEEP"] "") env_ok argv_both ∅)) =
    [banner +:+ nl; "HALT" +:+ nl].
Proof.
  split; [reflexivity |]. split; [reflexivity |].
  exact (proj2 (proj2 (main_write_targets (sample_parser 1 ["BEEP"] "") env_ok
                         argv_both ∅)) eq_refl eq_refl).
Defined.

(** X3. [yyparse] is called once when both files open and never otherwise;
    the call comes right after the banner is written to the output stream,
    with only successful [fopen] calls before, and [HALT] is written to the
    same stream after it. *)
Theorem main_calls_yyparse_once (yyparse : Parser) (env : Env)
    (argv : list string) (d : gmap string string) :
  let t := trace (final_state yyparse env argv d) in
  length (parse_calls t) =
    (if input_opens env argv && output_opens env argv then 1 else 0)%nat /\
  (forall y res, In (EvYyparse y res) t ->
     exists pre post f,
       t = pre ++ EvFprintf f (banner +:+ nl) :: EvYyparse y res :: post /\
       (forall e, In e pre -> exists path m g, e = EvFopen path m (Some g)) /\
       In (EvFprintf f ("HALT" +:+ nl)) post /\
       f_path f = out_name_of argv).
Proof.
  cbn zeta. unfold input_opens, output_opens.
  run_paths yyparse env argv; rewrite ?Hr, ?Hw.
  all: split; [reflexivity |].
  all: intros y res HIn; in_cases HIn.
  all: match goal with
       | |- exists pre post f, ?t = _ /\ _ =>
           match t with
           | ?a :: EvFprintf ?f _ :: EvYyparse _ _ :: ?post =>
               exists [a], post, f
           | ?a :: ?b :: EvFprintf ?f _ :: EvYyparse _ _ :: ?post =>
               exists [a; b], post, f
           end
       end.
  all: split; [reflexivity |]; split; [| split; [find_in | reflexivity]].
  all: intros e He; in_cases He; eauto.
Qed.

Lemma main_calls_yyparse_once_witness :
  length (parse_calls (trace (final_state (sample_parser 0 ["BEEP"] "") env_ok
                                argv_both ∅))) = 1%nat /\
  length (parse_calls (trace (final_state (sample_parser 0 ["BEEP"] "")
                                (env_without "b.mwasm") argv_both ∅))) = 0%nat.
Proof.
  split.
  - exact (proj1 (main_calls_yyparse_once (sample_parser 0 ["BEEP"] "") env_ok
                    argv_both ∅)).
  - exact (proj1 (main_calls_yyparse_once (sample_parser 0 ["BEEP"] "")
                    (env_without "b.mwasm") argv_both ∅)).
Defined.

(** X4. The calls [main] itself makes on the stream [stderr]:
    [fprintf(stderr, ...)] with the line [falha], exactly when [yyparse] was
    called and returned non-zero, and with nothing else; no [fprintf] on
    [stderr] and no [perror] when it returns 0; and [perror] only on a run
    that returns 1 without calling [yyparse], for the input name or the
    output name, its line being then all that went through [stderr]. *)
Theorem main_stderr_discipline (yyparse : Parser) (env : Env)
    (argv : list string) (d : gmap string string) :
  let s := final_state yyparse env argv d in
  (In (EvFprintf stderr (falha +:+ nl)) (trace s) <->
   exists y res, In (EvYyparse y res) (trace s) /\ res <> 0) /\
  (forall text, In (EvFprintf stderr text) (trace s) -> text = falha +:+ nl) /\
  (exit_code yyparse env argv d = 0 ->
   (forall text, ~ In (EvFprintf stderr text) (trace s)) /\
   (forall msg, ~ In (EvPerror msg) (trace s))) /\
  (forall msg, In (EvPerror msg) (trace s) ->
     exit_code yyparse env argv d = 1 /\
     parse_calls (trace s) = [] /\
     (in_name_of argv = Some msg \/ msg = out_name_of argv) /\
     err_text s = perror_line msg (errno s)).
Proof.
  cbn zeta.
  run_paths yyparse env argv.
  all: split; [split | split; [| split]].
  all: try solve [close_path].
  all: try solve [intros; break_hyps; subst; rewrite ?append_nil_l; auto].
  all: try solve [intros _; eexists; eexists; split; [find_in | assumption]].
  all: try solve [intros _; split; intros ? HIn; in_cases HIn].
Qed.

Lemma main_stderr_discipline_witness :
  In (EvFprintf stderr (falha +:+ nl))
     (trace (final_state (sample_parser 1 ["BEEP"] "") env_ok argv_both ∅)) /\
  ~ In (EvFprintf stderr (falha +:+ nl))
      (trace (final_state (sample_parser 0 ["BEEP"] "") env_ok argv_both ∅)).
Proof.
  split.
  - apply (proj1 (main_stderr_discipline (sample_parser 1 ["BEEP"] "") env_ok
                    argv_both ∅)).
    exists (Some (mkFILE 3 "a.est" ModeR)), 1.
    split; [vm_compute; do 3 right; left; reflexivity | discriminate].
  - apply (proj1 (proj2 (proj2 (main_stderr_discipline
                                  (sample_parser 0 ["BEEP"] "") env_ok
                                  argv_both ∅)))).
    reflexivity.
Defined.

(** X5. On the normal path the last call of [main] is [fclose] on whatever
    stream [yyin] holds after the parse, which is then no longer open: with
    no input argument and a scanner that fell back on standard input, [main]
    closes standard input.  When [yyin] is null the last call closes the
    output. *)
Theorem main_closes_what_yyin_holds (yyparse : Parser) (env : Env)
    (argv : list string) (d : gmap string string) :
  input_opens env argv = true -> output_opens env argv = true ->
  let s := final_state yyparse env argv d in
  (forall y res, In (EvYyparse y res) (trace s) ->
     forall f, yyin s = Some f ->
       last (trace s) = Some (EvFclose f) /\
       forall g, In g (open_streams s) -> f_id g <> f_id f) /\
  (yyin s = None -> exists f, last (trace s) = Some (EvFclose f) /\
                              out s = Some f).
Proof.
  unfold input_opens, output_opens. cbn zeta.
  run_paths yyparse env argv; rewrite ?Hr, ?Hw; try discriminate; intros _ _.
  all: split; [| try discriminate; intros _; eexists; split; reflexivity].
  all: intros y res HIn g Hg; simplify_eq; try discriminate.
  all: split; [reflexivity |].
  all: intros h Hh; apply filter_In in Hh as [_ Hh];
       apply negb_true_iff, Nat.eqb_neq in Hh; exact Hh.
Qed.

Lemma main_closes_what_yyin_holds_witness :
  input_opens env_ok argv_none = true /\
  output_opens env_ok argv_none = true /\
  yyin (final_state (sample_parser 0 ["BEEP"] "") env_ok argv_none ∅) =
    Some stdin /\
  last (trace (final_state (sample_parser 0 ["BEEP"] "") env_ok argv_none ∅)) =
    Some (EvFclose stdin).
Proof.
  split; [reflexivity |]. split; [reflexivity |]. split; [reflexivity |].
  apply (proj1 (main_closes_what_yyin_holds (sample_parser 0 ["BEEP"] "")
                  env_ok argv_none ∅ eq_refl eq_refl) None 0).
  - vm_compute. do 2 right. left. reflexivity.
  - reflexivity.
Defined.

(** X6. If the parser leaves in [yyin] either what it found there or
    standard input, [main] closes no stream twice, and every stream it
    closes is standard input or a stream it opened itself. *)
Theorem main_never_closes_twice (yyparse : Parser) (env : Env)
    (argv : list string) (d : gmap string string) :
  (forall s f, yy_yyin (yyparse s) = Some f -> yyin s = Some f \/ f = stdin) ->
  let t := trace (final_state yyparse env argv d) in
  List.NoDup (fclose_calls t) /\
  (forall f, In f (fclose_calls t) ->
     f = stdin \/ exists path m, In (EvFopen path m (Some f)) t).
Proof.
  intros Hsane. cbn zeta.
  run_paths yyparse env argv.
  all: try (destruct (Hsane s_call _ Hy) as [Hk | Hk]; cbn in Hk; simplify_eq).
  all: cbn [fclose_calls omap list_omap].
  all: split; [repeat constructor; cbn [In]; intuition discriminate |].
  all: intros g Hg; in_cases Hg; subst; auto.
  all: right; do 2 eexists; find_in.
Qed.

Lemma sample_parser_sane (res : Z) (body : list string) (diag : string) :
  forall s f, yy_yyin (sample_parser res body diag s) = Some f ->
              yyin s = Some f \/ f = stdin.
Proof.
  intros s f. unfold sample_parser. cbn. destruct (yyin s); intros H.
  - now left.
  - right. congruence.
Qed.

Lemma main_never_closes_twice_witness :
  (forall s f, yy_yyin (sample_parser 0 ["BEEP"] "" s) = Some f ->
               yyin s = Some f \/ f = stdin) /\
  List.NoDup (fclose_calls (trace (final_state (sample_parser 0 ["BEEP"] "")
                                     env_ok argv_both ∅))).
Proof.
  split; [apply sample_parser_sane |].
  exact (proj1 (main_never_closes_twice (sample_parser 0 ["BEEP"] "") env_ok
                  argv_both ∅ (sample_parser_sane 0 ["BEEP"] ""))).
Defined.

(** X7. [main] adds one line before and one line after what the parser
    emits and nothing else: for a parser that emits the newline-free lines
    [body], the output file reads, line by line, the banner, [body] in order,
    [HALT]. *)
Theorem main_frames_emitted (yyparse : Parser) (env : Env)
    (argv : list string) (d : gmap string string) (body : list string) :
  (forall s, yy_emitted (yyparse s) = body) ->
  forallb one_line body = true ->
  input_opens env argv = true -> output_opens env argv = true ->
  lines <$> disk (final_state yyparse env argv d) !! out_name_of argv =
  Some (banner :: body ++ ["HALT"]).
Proof.
  intros Hbody Hlines Hin Hout.
  rewrite (main_output_text yyparse env argv d body Hbody Hin Hout).
  cbn [fmap option_fmap option_map]. f_equal.
  now apply output_text_lines.
Qed.

Lemma main_frames_emitted_witness :
  (forall s, yy_emitted (sample_parser 0 ["POWERON"; "BEEP"] "" s) =
             ["POWERON"; "BEEP"]) /\
  forallb one_line ["POWERON"; "BEEP"] = true /\
  input_opens env_ok argv_both = true /\
  output_opens env_ok argv_both = true /\
  lines <$> disk (final_state (sample_parser 0 ["POWERON"; "BEEP"] "") env_ok
                    argv_both ∅) !! out_name_of argv_both =
  Some [banner; "POWERON"; "BEEP"; "HALT"].
Proof.
  split; [reflexivity |]. split; [reflexivity |].
  split; [reflexivity |]. split; [reflexivity |].
  exact (main_frames_emitted (sample_parser 0 ["POWERON"; "BEEP"] "") env_ok
           argv_both ∅ ["POWERON"; "BEEP"] (fun _ => eq_refl) eq_refl eq_refl
           eq_refl).
Defined.

End DriverMoreFacts.

(** ** More on the token kinds *)

Module TokensMoreFacts.

Import Tokens Observed.

(** X8. The enumerators of [yytokentype] have pairwise distinct values; all
    but [YYEMPTY] and [YYEOF] lie above 255, out of the range of a
    character, and take the fifty values 256, ..., 305 in the order of the
    enumeration, each once. *)
Theorem token_codes_exact :
  (forall t1 t2, token_code t1 = token_code t2 -> t1 = t2) /\
  (forall t, t <> YYEMPTY -> t <> YYEOF -> 255 < token_code t) /\
  length grammar_tokens = 50%nat /\
  (forall i t, grammar_tokens !! i = Some t ->
               token_code t = 256 + Z.of_nat i) /\
  (forall t, t <> YYEMPTY -> t <> YYEOF -> In t grammar_tokens).
Proof.
  split; [| split; [| split; [| split]]].
  - intros t1 t2. destruct t1, t2; intros H;
      first [reflexivity | discriminate H].
  - intros t H1 H2. destruct t; cbn; first [lia | congruence].
  - reflexivity.
  - intros i t H.
    do 50 (destruct i as [|i]; [injection H as <-; reflexivity |]).
    discriminate H.
  - intros t H1 H2. destruct t; first [congruence | cbn; tauto].
Qed.

End TokensMoreFacts.
